(** * SmartThings integration: subscription reconciler, installation
      handshake and webhook dispatcher

    A shallow embedding of [custom_components/smartthings/smartapp.py],
    [config_flow.py] and [const.py].  Coroutines become functions in a
    state-and-exception monad over an explicit world (the remote cloud, or
    the flow handler instance), awaited collaborators become operations of
    that world whose outcome is supplied by an oracle, and [_LOGGER] calls
    become records appended to a log. *)

From Stdlib Require Import Ascii String.
From stdpp Require Import base strings list gmap sets fin_sets infinite.

Set Warnings "-clear-no-such-hyp,-register-all".


Open Scope string_scope.
Open Scope list_scope.

(** ** Exceptions *)

(** Errors the cloud client can raise: [pysmartthings.APIResponseError],
    [aiohttp.ClientResponseError], and the transport failures of aiohttp
    that are no response errors. *)
Inductive RemoteError :=
  | APIResponseError
  | ClientResponseError
  | ClientConnectionError
  | ServerTimeoutError.

Inductive exn :=
  | RemoteExn (e : RemoteError)
  | JSONDecodeError
  | KeyError (key : string)
  | TypeError
  | AttributeError (name : string)
  | CancelledError.

(** [isinstance(e, Exception)]: [asyncio.CancelledError] derives from
    [BaseException] only. *)
Definition is_Exception (e : exn) : bool :=
  match e with
  | CancelledError => false
  | _ => true
  end.

(** [isinstance(e, (APIResponseError, ClientResponseError))]. *)
Definition is_response_error (e : exn) : bool :=
  match e with
  | RemoteExn APIResponseError | RemoteExn ClientResponseError => true
  | _ => false
  end.

(** ** Coroutines over a world [W] *)

Inductive Res (A : Type) :=
  | Ret (a : A)
  | Raise (e : exn).
Arguments Ret {A} a.
Arguments Raise {A} e.

(** A raised exception keeps the mutations made before it. *)
Definition M (W A : Type) : Type := W → Res A * W.

Definition ret {W A} (a : A) : M W A := λ w, (Ret a, w).
Definition raise {W A} (e : exn) : M W A := λ w, (Raise e, w).
Definition bind {W A B} (c : M W A) (k : A → M W B) : M W B :=
  λ w, match c w with
       | (Ret a, w') => k a w'
       | (Raise e, w') => (Raise e, w')
       end.

(** [try: c except <classes> as e: h e] *)
Definition try_except {W A} (c : M W A) (catches : exn → bool)
    (h : exn → M W A) : M W A :=
  λ w, match c w with
       | (Ret a, w') => (Ret a, w')
       | (Raise e, w') => if catches e then h e w' else (Raise e, w')
       end.

Definition get {W} : M W W := λ w, (Ret w, w).
Definition modify {W} (f : W → W) : M W unit := λ w, (Ret tt, f w).

Global Instance M_ret {W} : MRet (M W) := λ A, @ret W A.
Global Instance M_bind {W} : MBind (M W) := λ A B k c, @bind W A B c k.

(** [asyncio.gather] over the task list: every task runs to completion
    whatever its siblings do; the first exception, if any, is the one the awaiter sees. *)
Fixpoint gather {W} (tasks : list (M W unit)) : M W unit :=
  match tasks with
  | [] => ret tt
  | t :: rest =>
      λ w, let '(r1, w1) := t w in
           let '(r2, w2) := gather rest w1 in
           (match r1 with Raise e => Raise e | Ret _ => r2 end, w2)
  end.

(** ** Logging *)

Inductive Level := DEBUG | WARNING | ERROR.

Global Instance Level_eq_dec : EqDecision Level.
Proof. solve_decision. Defined.

Inductive LogArg :=
  | AStr (s : string)
  | AInt (n : nat)
  | ACaps (c : gset string)
  | AErrors (d : gmap string string)
  | AExn (e : exn).

Record LogRecord := mkLog {
  log_level : Level;
  log_msg : string;
  log_args : list LogArg
}.

(** ** Constants of [const.py] *)

Definition CONF_ACCESS_TOKEN := "access_token".
Definition CONF_CLIENT_ID := "client_id".
Definition CONF_CLIENT_SECRET := "client_secret".
Definition CONF_APP_ID := "app_id".
Definition CONF_INSTALLED_APP_ID := "installed_app_id".
Definition CONF_LOCATION_ID := "location_id".
Definition CONF_REFRESH_TOKEN := "refresh_token".

Definition IGNORED_CAPABILITIES : list string :=
  ["execute"; "healthCheck"; "ocf"].
Definition SUBSCRIPTION_WARNING_LIMIT : nat := 40.

(** * Subscription reconciler *)

Module Reconciler.

Inductive SourceType := UNKNOWN | CAPABILITY | DEVICE.

(** [pysmartthings.Subscription] as [create_subscription] fills it in. *)
Record Subscription := mkSubscription {
  sub_installed_app_id : string;
  sub_location_id : string;
  sub_source_type : SourceType;
  sub_capability : string
}.

(** [pysmartthings.SubscriptionEntity]: a subscription the cloud holds. *)
Record SubscriptionEntity := mkEntity {
  subscription_id : string;
  installed_app_id : string;
  location_id : string;
  source_type : SourceType;
  capability : string
}.

Record DeviceEntity := mkDevice {
  capabilities : list string
}.

Inductive ApiCall :=
  | CallSubscriptions (app : string)
  | CallCreateSubscription (sub : Subscription)
  | CallDeleteSubscription (app : string) (sid : string).

(** The cloud as the pass sees it: the subscriptions of the installed app,
    the calls served so far and the integration's log. *)
Record Cloud := mkCloud {
  remote : list SubscriptionEntity;
  calls : list ApiCall;
  logs : list LogRecord
}.

(** Which calls fail, and with what. A failing call changes nothing. *)
Record Faults := mkFaults {
  subscriptions_fault : string → option RemoteError;
  create_fault : Subscription → option RemoteError;
  delete_fault : string → string → option RemoteError
}.

Definition no_faults : Faults :=
  {| subscriptions_fault := λ _, None;
     create_fault := λ _, None;
     delete_fault := λ _ _, None |}.

Global Instance SourceType_eq_dec : EqDecision SourceType.
Proof. solve_decision. Defined.
Global Instance Subscription_eq_dec : EqDecision Subscription.
Proof. solve_decision. Defined.
Global Instance SubscriptionEntity_eq_dec : EqDecision SubscriptionEntity.
Proof. solve_decision. Defined.

Definition log (lv : Level) (msg : string) (args : list LogArg) : M Cloud unit :=
  modify (λ w, {| remote := remote w; calls := calls w;
                  logs := logs w ++ [mkLog lv msg args] |}).

Definition record_call (c : ApiCall) : M Cloud unit :=
  modify (λ w, {| remote := remote w; calls := calls w ++ [c];
                  logs := logs w |}).

Definition set_remote (f : list SubscriptionEntity → list SubscriptionEntity)
    : M Cloud unit :=
  modify (λ w, {| remote := f (remote w); calls := calls w; logs := logs w |}).

(** The record the cloud stores for a created subscription: the identifier
    is one the app has no subscription under yet. *)
Definition stored (st : list SubscriptionEntity) (sub : Subscription)
    : SubscriptionEntity :=
  {| subscription_id := fresh (subscription_id <$> st);
     installed_app_id := sub_installed_app_id sub;
     location_id := sub_location_id sub;
     source_type := sub_source_type sub;
     capability := sub_capability sub |}.

Section Api.
Variable faults : Faults.

(** [api.subscriptions(installed_app_id)] *)
Definition api_subscriptions (app : string) : M Cloud (list SubscriptionEntity) :=
  record_call (CallSubscriptions app) ;;
  match subscriptions_fault faults app with
  | Some e => raise (RemoteExn e)
  | None => w ← get; ret (remote w)
  end.

(** [api.create_subscription(sub)] *)
Definition api_create_subscription (sub : Subscription) : M Cloud unit :=
  record_call (CallCreateSubscription sub) ;;
  match create_fault faults sub with
  | Some e => raise (RemoteExn e)
  | None => set_remote (λ st, st ++ [stored st sub])
  end.

(** [api.delete_subscription(installed_app_id, subscription_id)] *)
Definition api_delete_subscription (app sid : string) : M Cloud unit :=
  record_call (CallDeleteSubscription app sid) ;;
  match delete_fault faults app sid with
  | Some e => raise (RemoteExn e)
  | None => set_remote (filter (λ s, subscription_id s ≠ sid))
  end.
End Api.

(** A coroutine queued in [tasks]. *)
Inductive Task :=
| DeleteTask (sub : SubscriptionEntity)
| CreateTask (target : string).

Global Instance Task_eq_dec : EqDecision Task.
Proof. solve_decision. Defined.

(** The loop over [subscriptions]: a subscription whose capability is
  still wanted consumes it, any other subscription is queued for removal. *)
Definition diff_step (acc : gset string * list Task) (subscription : SubscriptionEntity)
  : gset string * list Task :=
let '(capabilities, tasks) := acc in
if decide (capability subscription ∈ capabilities)
then (capabilities ∖ {[capability subscription]}, tasks)
else (capabilities, tasks ++ [DeleteTask subscription]).

Definition diff_subscriptions (capabilities : gset string)
  (subscriptions : list SubscriptionEntity) : gset string * list Task :=
foldl diff_step (capabilities, []) subscriptions.

Section Sync.
(** [pysmartthings.CAPABILITIES], the capabilities the client library
  knows, and the order in which the cloud serves gathered calls. *)
Variable CAPABILITIES : list string.
Variable faults : Faults.
Variable schedule : list Task → list Task.

(** The set built from [devices] and pruned (lines 108-114). *)
Definition desired_capabilities (devices : list DeviceEntity) : gset string :=
let capabilities : gset string :=
  foldl (λ acc device, acc ∪ list_to_set (capabilities device)) ∅ devices in
(capabilities ∩ list_to_set CAPABILITIES) ∖ list_to_set IGNORED_CAPABILITIES.

(** The task list handed to [asyncio.gather]. *)
Definition sync_tasks (devices : list DeviceEntity)
  (subscriptions : list SubscriptionEntity) : list Task :=
let '(capabilities, tasks) :=
  diff_subscriptions (desired_capabilities devices) subscriptions in
tasks ++ (CreateTask <$> elements capabilities).

Section Closures.
Variables location_id' installed_app_id' : string.

Definition create_subscription (target : string) : M Cloud unit :=
let sub := {| sub_installed_app_id := installed_app_id';
              sub_location_id := location_id';
              sub_source_type := CAPABILITY;
              sub_capability := target |} in
try_except
  (api_create_subscription faults sub ;;
   log DEBUG "Created subscription for '%s' under app '%s'"
     [AStr target; AStr installed_app_id'])
  is_Exception
  (λ error,
     log ERROR "Failed to create subscription for '%s' under app '%s': %s"
       [AStr target; AStr installed_app_id'; AExn error]).

Definition delete_subscription (sub : SubscriptionEntity) : M Cloud unit :=
try_except
  (api_delete_subscription faults installed_app_id' (subscription_id sub) ;;
   log DEBUG
     "Removed subscription for '%s' under app '%s' because it was no longer needed"
     [AStr (capability sub); AStr installed_app_id'])
  is_Exception
  (λ error,
     log ERROR "Failed to remove subscription for '%s' under app '%s': %s"
       [AStr (capability sub); AStr installed_app_id'; AExn error]).

Definition run_task (t : Task) : M Cloud unit :=
match t with
| DeleteTask sub => delete_subscription sub
| CreateTask target => create_subscription target
end.
End Closures.

Definition smartapp_sync_subscriptions (auth_token location_id installed_app_id : string)
  (devices : list DeviceEntity) : M Cloud unit :=
let capabilities : gset string :=
  foldl (λ acc device, acc ∪ list_to_set (capabilities device)) ∅ devices in
log DEBUG "Available capabilities: %s" [ACaps capabilities] ;;
let capabilities := desired_capabilities devices in
let capability_count := size capabilities in
(if decide (SUBSCRIPTION_WARNING_LIMIT < capability_count)
 then log WARNING "Too many subscriptions required (%d), exceeding limit (%d)"
        [AInt capability_count; AInt SUBSCRIPTION_WARNING_LIMIT]
 else ret tt) ;;
log DEBUG "Synchronizing subscriptions for %d capabilities under app '%s': %s"
  [AInt capability_count; AStr installed_app_id; ACaps capabilities] ;;
subscriptions ← api_subscriptions faults installed_app_id;
let tasks := sync_tasks devices subscriptions in
match tasks with
| _ :: _ => gather (run_task location_id installed_app_id <$> schedule tasks)
| [] => log DEBUG "Subscriptions for app '%s' are up-to-date" [AStr installed_app_id]
end.
End Sync.

(** ** Vocabulary for the statements about a pass *)

(** The subscriptions the loop queues for removal, and those it leaves
alone, by recursion on the listing. *)
Fixpoint obsolete (capabilities : gset string) (subscriptions : list SubscriptionEntity)
: list SubscriptionEntity :=
match subscriptions with
| [] => []
| s :: rest =>
  if decide (capability s ∈ capabilities)
  then obsolete (capabilities ∖ {[capability s]}) rest
  else s :: obsolete capabilities rest
end.

Fixpoint kept (capabilities : gset string) (subscriptions : list SubscriptionEntity)
: list SubscriptionEntity :=
match subscriptions with
| [] => []
| s :: rest =>
  if decide (capability s ∈ capabilities)
  then s :: kept (capabilities ∖ {[capability s]}) rest
  else kept capabilities rest
end.

Definition del_ids (order : list Task) : list string :=
omap (λ t, match t with
         | DeleteTask s => Some (subscription_id s)
         | CreateTask _ => None
         end) order.

Definition targets (order : list Task) : list string :=
omap (λ t, match t with
         | DeleteTask _ => None
         | CreateTask c => Some c
         end) order.

Section TaskView.
Variable faults : Faults.
Variables loc app : string.

Definition new_subscription (target : string) : Subscription :=
{| sub_installed_app_id := app; sub_location_id := loc;
 sub_source_type := CAPABILITY; sub_capability := target |}.

(** The one call a task makes. *)
Definition task_call (t : Task) : ApiCall :=
match t with
| DeleteTask s => CallDeleteSubscription app (subscription_id s)
| CreateTask c => CallCreateSubscription (new_subscription c)
end.

Definition task_fault (t : Task) : option RemoteError :=
match t with
| DeleteTask s => delete_fault faults app (subscription_id s)
| CreateTask c => create_fault faults (new_subscription c)
end.

(** What the call does to the cloud when it is served. *)
Definition task_effect (st : list SubscriptionEntity) (t : Task)
: list SubscriptionEntity :=
match t with
| DeleteTask s => filter (λ x, subscription_id x ≠ subscription_id s) st
| CreateTask c => st ++ [stored st (new_subscription c)]
end.

Definition task_step (st : list SubscriptionEntity) (t : Task)
: list SubscriptionEntity :=
match task_fault t with
| Some _ => st
| None => task_effect st t
end.

(** The one record a task logs. *)
Definition task_log (t : Task) : LogRecord :=
match t, task_fault t with
| DeleteTask s, None =>
  mkLog DEBUG
    "Removed subscription for '%s' under app '%s' because it was no longer needed"
    [AStr (capability s); AStr app]
| DeleteTask s, Some e =>
  mkLog ERROR "Failed to remove subscription for '%s' under app '%s': %s"
    [AStr (capability s); AStr app; AExn (RemoteExn e)]
| CreateTask c, None =>
  mkLog DEBUG "Created subscription for '%s' under app '%s'"
    [AStr c; AStr app]
| CreateTask c, Some e =>
  mkLog ERROR "Failed to create subscription for '%s' under app '%s': %s"
    [AStr c; AStr app; AExn (RemoteExn e)]
end.
End TaskView.

(** The order in which the calls of a pass are served: nothing is gathered
when the task list is empty. *)
Definition pass_order (schedule : list Task → list Task) (tasks : list Task)
: list Task :=
match tasks with
| [] => []
| _ :: _ => schedule tasks
end.

(** The records logged before the listing call. *)
Definition sync_header (CAPABILITIES : list string) (app : string)
(devices : list DeviceEntity) : list LogRecord :=
let available : gset string :=
foldl (λ acc device, acc ∪ list_to_set (capabilities device)) ∅ devices in
let wanted := desired_capabilities CAPABILITIES devices in
[mkLog DEBUG "Available capabilities: %s" [ACaps available]] ++
(if decide (SUBSCRIPTION_WARNING_LIMIT < size wanted)
then [mkLog WARNING "Too many subscriptions required (%d), exceeding limit (%d)"
     [AInt (size wanted); AInt SUBSCRIPTION_WARNING_LIMIT]]
else []) ++
[mkLog DEBUG "Synchronizing subscriptions for %d capabilities under app '%s': %s"
[AInt (size wanted); AStr app; ACaps wanted]].

End Reconciler.

(** * The credential pattern *)

Module Regex.

(** The fragment of [re] syntax that [VAL_UID] is written in. Groups only
    bracket; they capture nothing the flow reads. *)
Inductive regex :=
  | Bol                                   (* ^ *)
  | Eol                                   (* $ *)
  | Lit (c : ascii)
  | Class (ranges : list (ascii * ascii)) (* [a-bc-d...] *)
  | Seq (r1 r2 : regex)
  | Alt (r1 r2 : regex)                   (* r1|r2 *)
  | Repeat (r : regex) (n : nat).         (* r{n} *)

Definition in_range (c : ascii) (range : ascii * ascii) : bool :=
  (nat_of_ascii range.1 <=? nat_of_ascii c)%nat
  && (nat_of_ascii c <=? nat_of_ascii range.2)%nat.

(** A matcher state: how many characters are consumed, and what is left. *)
Definition cursor : Type := nat * string.

(** Every way [r] can match at a cursor. [$] holds at the end of the text
    and also just before a newline that ends it. *)
Fixpoint step (r : regex) (at_ : cursor) : list cursor :=
  match r with
  | Bol => if at_.1 is O then [at_] else []
  | Eol =>
      match at_.2 with
      | EmptyString => [at_]
      | String c EmptyString => if Ascii.eqb c "010"%char then [at_] else []
      | _ => []
      end
  | Lit c =>
      match at_.2 with
      | String c' rest => if Ascii.eqb c c' then [(S at_.1, rest)] else []
      | EmptyString => []
      end
  | Class ranges =>
      match at_.2 with
      | String c' rest =>
          if existsb (in_range c') ranges then [(S at_.1, rest)] else []
      | EmptyString => []
      end
  | Seq r1 r2 => step r1 at_ ≫= step r2
  | Alt r1 r2 => step r1 at_ ++ step r2 at_
  | Repeat r n => Nat.iter n (λ cursors, cursors ≫= step r) [at_]
  end.

(** [re.compile(r).match(text)] is not [None]. *)
Definition re_match (r : regex) (text : string) : bool :=
  match step r (0, text) with
  | [] => false
  | _ :: _ => true
  end.

Definition hex : regex :=
  Class [("0", "9"); ("a", "f"); ("A", "F")]%char.

Definition seq (rs : list regex) (last : regex) : regex := foldr Seq last rs.

(** [[0-9a-fA-F]{32}] *)
Definition hex32 : regex := Repeat hex 32.

(** [[0-9a-fA-F]{8}-[0-9a-fA-F]{4}-[0-9a-fA-F]{4}-[0-9a-fA-F]{4}-[0-9a-fA-F]{12}] *)
Definition hyphenated : regex :=
  seq [Repeat hex 8; Lit "-"; Repeat hex 4; Lit "-"; Repeat hex 4; Lit "-";
       Repeat hex 4; Lit "-"] (Repeat hex 12).

(** [VAL_UID] of [const.py]. *)
Definition VAL_UID : regex := Seq Bol (Seq (Alt hex32 hyphenated) Eol).

Definition VAL_UID_MATCHER_match (text : string) : bool := re_match VAL_UID text.

Arguments re_match : simpl never.
Arguments VAL_UID_MATCHER_match : simpl never.

(** The two alternatives as patterns of their own. *)
Definition VAL_HEX32 : regex := Seq Bol (Seq hex32 Eol).
Definition VAL_HYPHENATED : regex := Seq Bol (Seq hyphenated Eol).

End Regex.

(** ** Vocabulary for the statements about the credential pattern *)

Module Uid.

Import Regex.

(** Membership in [[0-9a-fA-F]]. *)
Definition is_hex (c : ascii) : bool :=
  existsb (in_range c) [("0", "9"); ("a", "f"); ("A", "F")]%char.

(** Reads [n] hexadecimal digits off the front of a text. *)
Fixpoint take_hex (n : nat) (s : string) : option string :=
  match n with
  | O => Some s
  | S n' =>
      match s with
      | String c rest => if is_hex c then take_hex n' rest else None
      | EmptyString => None
      end
  end.

(** Reads one hyphen off the front of a text. *)
Definition take_hyphen (s : string) : option string :=
  match s with
  | String c rest => if Ascii.eqb "-" c then Some rest else None
  | EmptyString => None
  end.

(** Where [$] holds. *)
Definition at_end (s : string) : bool :=
  match s with
  | EmptyString => true
  | String c EmptyString => Ascii.eqb c "010"%char
  | _ => false
  end.

(** A text of exactly [n] hexadecimal digits. *)
Definition hex_run (n : nat) (s : string) : Prop :=
  String.length s = n
  ∧ Forall (λ c, is_hex c = true) (list_ascii_of_string s).

(** Where a match that can end in one way at most leaves the cursor. *)
Definition landing (p : nat) (left : option string) : list cursor :=
  match left with
  | Some rest => [(p, rest)]
  | None => []
  end.

(** Reads the hyphenated form off the front of a text. *)
Definition take_hyphenated (s : string) : option string :=
  s1 ← take_hex 8 s; s2 ← take_hyphen s1;
  s3 ← take_hex 4 s2; s4 ← take_hyphen s3;
  s5 ← take_hex 4 s4; s6 ← take_hyphen s5;
  s7 ← take_hex 4 s6; s8 ← take_hyphen s7;
  take_hex 12 s8.

Definition newline : string := String "010"%char EmptyString.

End Uid.

(** * Installation handshake *)

Module ConfigFlow.

Record AppEntity := mkApp { app_app_id : string }.
Record AppOAuthClient := mkClient { client_id : string; client_secret : string }.
Record LocationEntity := mkLocation { loc_location_id : string; loc_name : string }.

(** Awaited collaborators of the flow, in the order the steps reach them. *)
Inductive ApiCall :=
  | CallFindApp (token : string)
  | CallAppRefresh (app : string)
  | CallUpdateApp (app : string)
  | CallCreateApp (token : string)
  | CallLocations (token : string).

(** What each collaborator answers. [find_app], [update_app] and
    [create_app] are functions of [smartapp.py] that reach the cloud;
    [app.refresh] and [api.locations] belong to the client library. *)
Record Remote := mkRemote {
  find_app_answer : string → Res (option AppEntity);
  refresh_answer : AppEntity → Res unit;
  update_app_answer : AppEntity → Res unit;
  create_app_answer : string → Res (AppEntity * AppOAuthClient);
  locations_answer : string → Res (list LocationEntity)
}.

(** The instance attributes of [SmartThingsFlowHandler]. [api], [app_id]
    and [location_id] are only declared by the class: they do not exist
    until a step assigns them, and [None] stands for that here; for the
    attributes [__init__] assigns, [None] is Python's [None]. *)
Record SmartThingsFlowHandler := mkHandler {
  api : option string;
  app_id : option string;
  location_id : option string;
  access_token : option string;
  oauth_client_secret : option string;
  oauth_client_id : option string;
  installed_app_id : option string;
  refresh_token : option string;
  endpoints_initialized : bool
}.

(** [SmartThingsFlowHandler.__init__] *)
Definition init : SmartThingsFlowHandler :=
  {| api := None; app_id := None; location_id := None;
     access_token := None;
     oauth_client_secret := None;
     oauth_client_id := None;
     installed_app_id := None;
     refresh_token := None;
     endpoints_initialized := false |}.

Inductive Schema :=
  | NoSchema
  | TokenSchema                                   (* {Required(access_token): str} *)
  | LocationSchema (options : gmap string string). (* {Required(location_id): In(options)} *)

Inductive ConfigFlowResult :=
  | ShowForm (step_id : string) (data_schema : Schema) (errors : gmap string string)
  | Abort (reason : string)
  | ExternalStep (step_id : string) (url : string)
  | CreateEntry (title : string) (data : gmap string (option string)).

(** The flow instance together with what it has done to its surroundings:
    the calls it awaited, the apps it handed to [setup_smartapp], its log. *)
Record Flow := mkFlow {
  self : SmartThingsFlowHandler;
  calls : list ApiCall;
  smartapps : list AppEntity;
  logs : list LogRecord
}.

Definition log (lv : Level) (msg : string) (args : list LogArg) : M Flow unit :=
  modify (λ w, {| self := self w; calls := calls w; smartapps := smartapps w;
                  logs := logs w ++ [mkLog lv msg args] |}).

Definition record_call (c : ApiCall) : M Flow unit :=
  modify (λ w, {| self := self w; calls := calls w ++ [c];
                  smartapps := smartapps w; logs := logs w |}).

Definition assign (f : SmartThingsFlowHandler → SmartThingsFlowHandler)
    : M Flow unit :=
  modify (λ w, {| self := f (self w); calls := calls w;
                  smartapps := smartapps w; logs := logs w |}).

(** Reading an attribute that may not exist yet. *)
Definition attribute (name : string)
    (field : SmartThingsFlowHandler → option string) : M Flow string :=
  w ← get;
  match field (self w) with
  | Some v => ret v
  | None => raise (AttributeError name)
  end.

Definition await {A} (c : ApiCall) (answer : Res A) : M Flow A :=
  record_call c ;;
  match answer with
  | Ret a => ret a
  | Raise e => raise e
  end.

Definition set_api v h :=
  {| api := v; app_id := app_id h; location_id := location_id h;
     access_token := access_token h;
     oauth_client_secret := oauth_client_secret h;
     oauth_client_id := oauth_client_id h;
     installed_app_id := installed_app_id h;
     refresh_token := refresh_token h;
     endpoints_initialized := endpoints_initialized h |}.
Definition set_app_id v h :=
  {| api := api h; app_id := v; location_id := location_id h;
     access_token := access_token h;
     oauth_client_secret := oauth_client_secret h;
     oauth_client_id := oauth_client_id h;
     installed_app_id := installed_app_id h;
     refresh_token := refresh_token h;
     endpoints_initialized := endpoints_initialized h |}.
Definition set_location_id v h :=
  {| api := api h; app_id := app_id h; location_id := v;
     access_token := access_token h;
     oauth_client_secret := oauth_client_secret h;
     oauth_client_id := oauth_client_id h;
     installed_app_id := installed_app_id h;
     refresh_token := refresh_token h;
     endpoints_initialized := endpoints_initialized h |}.
Definition set_access_token v h :=
  {| api := api h; app_id := app_id h; location_id := location_id h;
     access_token := v;
     oauth_client_secret := oauth_client_secret h;
     oauth_client_id := oauth_client_id h;
     installed_app_id := installed_app_id h;
     refresh_token := refresh_token h;
     endpoints_initialized := endpoints_initialized h |}.
Definition set_oauth_client_secret v h :=
  {| api := api h; app_id := app_id h; location_id := location_id h;
     access_token := access_token h;
     oauth_client_secret := v;
     oauth_client_id := oauth_client_id h;
     installed_app_id := installed_app_id h;
     refresh_token := refresh_token h;
     endpoints_initialized := endpoints_initialized h |}.
Definition set_oauth_client_id v h :=
  {| api := api h; app_id := app_id h; location_id := location_id h;
     access_token := access_token h;
     oauth_client_secret := oauth_client_secret h;
     oauth_client_id := v;
     installed_app_id := installed_app_id h;
     refresh_token := refresh_token h;
     endpoints_initialized := endpoints_initialized h |}.
Definition set_installed_app_id v h :=
  {| api := api h; app_id := app_id h; location_id := location_id h;
     access_token := access_token h;
     oauth_client_secret := oauth_client_secret h;
     oauth_client_id := oauth_client_id h;
     installed_app_id := v;
     refresh_token := refresh_token h;
     endpoints_initialized := endpoints_initialized h |}.
Definition set_refresh_token v h :=
  {| api := api h; app_id := app_id h; location_id := location_id h;
     access_token := access_token h;
     oauth_client_secret := oauth_client_secret h;
     oauth_client_id := oauth_client_id h;
     installed_app_id := installed_app_id h;
     refresh_token := v;
     endpoints_initialized := endpoints_initialized h |}.

(** [if user_input:] a dict is true unless it is empty. *)
Definition truthy (user_input : option (gmap string string)) : bool :=
  match user_input with
  | Some d => bool_decide (d ≠ ∅)
  | None => false
  end.

(** [{location.location_id: location.name for location in locations}] *)
Definition locations_options (locations : list LocationEntity) : gmap string string :=
  foldl (λ d location, <[loc_location_id location := loc_name location]> d)
    ∅ locations.

Section Steps.
Variable remote : Remote.
(** [pysmartthings.installedapp.format_install_url] *)
Variable format_install_url : string → string → string.

(** [setup_smartapp(hass, app)]: registers the app with the local
    lifecycle manager. *)
Definition setup_smartapp (app : AppEntity) : M Flow unit :=
  modify (λ w, {| self := self w; calls := calls w;
                  smartapps := smartapps w ++ [app]; logs := logs w |}).

Definition _show_step_pat (errors : gmap string string) : M Flow ConfigFlowResult :=
  log DEBUG "Returning to PAT input form with errors: %s" [AErrors errors] ;;
  ret (ShowForm "pat" TokenSchema errors).

Definition async_step_authorize (user_input : option (gmap string string))
    : M Flow ConfigFlowResult :=
  if truthy user_input then
    let d := default ∅ user_input in
    assign (set_installed_app_id (d !! CONF_INSTALLED_APP_ID)) ;;
    assign (set_refresh_token (d !! CONF_REFRESH_TOKEN)) ;;
    log DEBUG "Authorization completed. Finalizing setup." [] ;;
    w ← get;
    location ← attribute "location_id" location_id;
    app ← attribute "app_id" app_id;
    ret (CreateEntry "SmartThings"
           (<[CONF_ACCESS_TOKEN := access_token (self w)]>
            (<[CONF_REFRESH_TOKEN := refresh_token (self w)]>
             (<[CONF_CLIENT_ID := oauth_client_id (self w)]>
              (<[CONF_CLIENT_SECRET := oauth_client_secret (self w)]>
               (<[CONF_LOCATION_ID := Some location]>
                (<[CONF_APP_ID := Some app]>
                 (<[CONF_INSTALLED_APP_ID := installed_app_id (self w)]>
                  ∅))))))))
  else
    log DEBUG "Prompting user for app authorization." [] ;;
    app ← attribute "app_id" app_id;
    location ← attribute "location_id" location_id;
    ret (ExternalStep "authorize" (format_install_url app location)).

Definition async_step_select_location (user_input : option (gmap string string))
    : M Flow ConfigFlowResult :=
  match user_input ≫= (.!! CONF_LOCATION_ID) with
  | None =>
      log DEBUG "Fetching available SmartThings locations." [] ;;
      token ← attribute "api" api;
      locations ← await (CallLocations token) (locations_answer remote token);
      let options := locations_options locations in
      if decide (options = ∅) then
        log ERROR "No available locations found." [] ;;
        ret (Abort "no_available_locations")
      else
        ret (ShowForm "select_location" (LocationSchema options) ∅)
  | Some selected =>
      assign (set_location_id (Some selected)) ;;
      log DEBUG "Location selected: %s" [AStr selected] ;;
      async_step_authorize None
  end.

Definition async_step_pat (user_input : option (gmap string string))
    : M Flow ConfigFlowResult :=
  let errors : gmap string string := ∅ in
  match user_input ≫= (.!! CONF_ACCESS_TOKEN) with
  | None =>
      log DEBUG "Displaying PAT entry form." [] ;;
      _show_step_pat errors
  | Some token =>
      assign (set_access_token (Some token)) ;;
      if negb (Regex.VAL_UID_MATCHER_match token) then
        let errors := <[CONF_ACCESS_TOKEN := "token_invalid_format"]> errors in
        log ERROR "Invalid token format provided." [] ;;
        _show_step_pat errors
      else
        log DEBUG "Attempting to validate token with SmartThings API." [] ;;
        assign (set_api (Some token)) ;;
        returned ← try_except
          (found ← await (CallFindApp token) (find_app_answer remote token);
           app ← match found with
                 | Some app =>
                     await (CallAppRefresh (app_app_id app)) (refresh_answer remote app) ;;
                     await (CallUpdateApp (app_app_id app)) (update_app_answer remote app) ;;
                     assign (set_app_id (Some (app_app_id app))) ;;
                     ret app
                 | None =>
                     '(app, client) ← await (CallCreateApp token)
                                        (create_app_answer remote token);
                     assign (set_oauth_client_id (Some (client_id client))) ;;
                     assign (set_oauth_client_secret (Some (client_secret client))) ;;
                     assign (set_app_id (Some (app_app_id app))) ;;
                     ret app
                 end;
           setup_smartapp app ;;
           ret None)
          is_response_error
          (λ ex,
             log ERROR "Error validating token or setting up SmartApp: %s" [AExn ex] ;;
             let errors := <["base" := "app_setup_error"]> errors in
             form ← _show_step_pat errors;
             ret (Some form));
        match returned with
        | Some form => ret form
        | None =>
            log DEBUG "Token validated. Proceeding to location selection." [] ;;
            async_step_select_location None
        end
  end.
End Steps.

(** ** Vocabulary for the statements about the credential step *)

(** The exception, if any, that the validation of a well-formed credential
  meets: looking the app up, then refreshing and updating it when it
  exists, creating it when it does not. *)
Definition validation_error (remote : Remote) (token : string) : option exn :=
match find_app_answer remote token with
| Raise e => Some e
| Ret (Some app) =>
    match refresh_answer remote app with
    | Raise e => Some e
    | Ret _ =>
        match update_app_answer remote app with
        | Raise e => Some e
        | Ret _ => None
        end
    end
| Ret None =>
    match create_app_answer remote token with
    | Raise e => Some e
    | Ret _ => None
    end
end.

(** The calls the validation makes, up to the first that raises. *)
Definition validation_calls (remote : Remote) (token : string) : list ApiCall :=
CallFindApp token ::
match find_app_answer remote token with
| Raise _ => []
| Ret (Some app) =>
    CallAppRefresh (app_app_id app) ::
    match refresh_answer remote app with
    | Raise _ => []
    | Ret _ => [CallUpdateApp (app_app_id app)]
    end
| Ret None => [CallCreateApp token]
end.

End ConfigFlow.

(** * The first step of the handshake *)

Module UserStep.

Import ConfigFlow.

(** What the step asks of its surroundings: the number of config entries
    [_async_current_entries] returns, the outcome of awaiting
    [setup_smartapp_endpoint] for a given [fresh_install] flag, and the
    answers of [get_webhook_url] and [validate_webhook_requirements]. *)
Record Hub := mkHub {
  current_entries : nat;
  endpoint_answer : bool → Res unit;
  webhook_url : string;
  webhook_valid : bool
}.

(** The flow together with the [fresh_install] flags that
    [setup_smartapp_endpoint] has been called with. *)
Record Entry := mkEntry {
  flow : Flow;
  endpoint_setups : list bool
}.

(** The confirmation form carries placeholders; every other result of the
    step is a result of the flow as before. *)
Inductive UserResult :=
  | ShowUserForm (description_placeholders : gmap string string)
  | Result (r : ConfigFlowResult).

Definition set_endpoints_initialized (v : bool) (h : SmartThingsFlowHandler)
    : SmartThingsFlowHandler :=
  {| api := api h; app_id := app_id h; location_id := location_id h;
     access_token := access_token h;
     oauth_client_secret := oauth_client_secret h;
     oauth_client_id := oauth_client_id h;
     installed_app_id := installed_app_id h;
     refresh_token := refresh_token h;
     endpoints_initialized := v |}.

(** A coroutine of the flow, run inside the wider world. *)
Definition in_flow {A} (c : M Flow A) : M Entry A :=
  λ w, let '(r, f) := c (flow w) in
       (r, {| flow := f; endpoint_setups := endpoint_setups w |}).

Section Step.
Variable hub : Hub.
Variable remote : Remote.
Variable format_install_url : string → string → string.

(** [await setup_smartapp_endpoint(hass, fresh_install)] *)
Definition setup_smartapp_endpoint (fresh_install : bool) : M Entry unit :=
  λ w, (endpoint_answer hub fresh_install,
        {| flow := flow w;
           endpoint_setups := endpoint_setups w ++ [fresh_install] |}).

Definition async_step_user (user_input : option (gmap string string))
    : M Entry UserResult :=
  w ← get;
  (if negb (endpoints_initialized (self (flow w))) then
     in_flow (assign (set_endpoints_initialized true)) ;;
     setup_smartapp_endpoint (bool_decide (current_entries hub = 0))
   else ret tt) ;;
  let url := webhook_url hub in
  if negb (webhook_valid hub) then
    in_flow (log ERROR
      "Invalid webhook URL: %s. Ensure it's reachable from the internet."
      [AStr url]) ;;
    ret (Result (Abort "invalid_webhook_url"))
  else
    match user_input with
    | None =>
        in_flow (log DEBUG "Displaying webhook confirmation form." []) ;;
        ret (ShowUserForm (<["webhook_url" := url]> ∅))
    | Some _ =>
        in_flow (log DEBUG "Proceeding to PAT entry step." []) ;;
        r ← in_flow (async_step_pat remote format_install_url None);
        ret (Result r)
    end.

(** The step invoked once for each input of a list, results dropped. *)
Definition user_steps (inputs : list (option (gmap string string))) (w : Entry)
    : Entry :=
  foldl (λ w input, (async_step_user input w).2) w inputs.
End Step.

(** The endpoint is ready: set up before, or set up now without error. *)
Definition endpoint_ready (hub : Hub) (w : Entry) : Prop :=
  endpoints_initialized (self (flow w)) = true
  ∨ endpoint_answer hub (bool_decide (current_entries hub = 0)) = Ret tt.

End UserStep.

(** * Webhook dispatcher *)

Module Webhook.

(** JSON documents, as [request.json()] hands them over. *)
Inductive Json :=
  | JNull
  | JBool (b : bool)
  | JNum (z : Z)
  | JStr (s : string)
  | JArr (items : list Json)
  | JObj (members : list (string * Json)).

(** The part of [aiohttp.web.Request] the handler reads. *)
Record Request := mkRequest {
  body : string;
  headers : list (string * string)
}.

(** [aiohttp.web.Response] *)
Record Response := mkResponse {
  status : nat;
  text : option string;
  content_type : option string
}.

(** [pysmartapp.SmartAppManager]: what [handle_request] answers. *)
Record Manager := mkManager {
  handle_request : Json → list (string * string) → Res Json
}.

(** [hass], as far as the handler goes: the manager stored under
    [hass.data[DOMAIN][DATA_MANAGER]], when there is one, and the log. *)
Record Hass := mkHass {
  data_manager : option Manager;
  logs : list LogRecord
}.

Definition log (lv : Level) (msg : string) (args : list LogArg) : M Hass unit :=
  modify (λ w, {| data_manager := data_manager w;
                  logs := logs w ++ [mkLog lv msg args] |}).

Definition lift {A} (answer : Res A) : M Hass A :=
  match answer with
  | Ret a => ret a
  | Raise e => raise e
  end.

Section Handler.
(** [json.loads] on the request text and [json.dumps] on the result. *)
Variable loads : string → Res Json.
Variable dumps : Json → Res string.

(** [web.json_response(result)] *)
Definition json_response (result : Json) : M Hass Response :=
  rendered ← lift (dumps result);
  ret {| status := 200; text := Some rendered;
         content_type := Some "application/json" |}.

Definition smartapp_webhook (webhook_id : string) (request : Request)
    : M Hass Response :=
  w ← get;
  manager ← match data_manager w with
            | Some manager => ret manager
            | None => raise (KeyError "manager")
            end;
  data ← lift (loads (body request));
  log DEBUG "Received SmartApp webhook data: %s" [AStr (body request)] ;;
  try_except
    (result ← lift (handle_request manager data (headers request));
     json_response result)
    is_Exception
    (λ e,
       log ERROR "Error processing webhook: %s" [AExn e] ;;
       ret {| status := 500; text := None; content_type := None |}).
End Handler.

End Webhook.

(** * Sample data *)

Module Samples.

Import Reconciler.

(** Two devices, an allowlist that knows their capabilities, and a cloud
    that holds a subscription for one wanted capability and one stale one. *)
Definition devices : list DeviceEntity :=
  [mkDevice ["switch"; "switchLevel"];
   mkDevice ["switch"; "thermostatMode"; "healthCheck"]].

Definition known : list string :=
  ["switch"; "switchLevel"; "thermostatMode"; "healthCheck"; "lock"].

Definition on_switch : SubscriptionEntity :=
  mkEntity "sub-1" "app-1" "loc-1" CAPABILITY "switch".
Definition on_lock : SubscriptionEntity :=
  mkEntity "sub-2" "app-1" "loc-1" CAPABILITY "lock".
Definition on_switch_again : SubscriptionEntity :=
  mkEntity "sub-3" "app-1" "loc-1" CAPABILITY "switch".

(** The subscription the cloud stores first when it is asked for one
    while holding [on_switch] and [on_lock]. *)
Definition on_thermostat : SubscriptionEntity :=
  mkEntity "0" "app-1" "loc-1" CAPABILITY "thermostatMode".

Definition cloud : Cloud := mkCloud [on_switch; on_lock] [] [].

(** The same cloud with a second subscription for [switch]. *)
Definition cloud_twice : Cloud := mkCloud [on_switch; on_lock; on_switch_again] [] [].

(** A cloud already in step with the devices. *)
Definition cloud_in_step : Cloud :=
  mkCloud [mkEntity "sub-4" "app-1" "loc-1" CAPABILITY "switchLevel";
           on_switch;
           mkEntity "sub-5" "app-1" "loc-1" CAPABILITY "thermostatMode"] [] [].

(** The listing fails. *)
Definition listing_down : Faults :=
  {| subscriptions_fault := λ _, Some APIResponseError;
     create_fault := λ _, None;
     delete_fault := λ _ _, None |}.

(** Creating a subscription for [switchLevel] fails, nothing else does. *)
Definition level_refused : Faults :=
  {| subscriptions_fault := λ _, None;
     create_fault := λ sub,
       if decide (sub_capability sub = "switchLevel")
       then Some ClientResponseError else None;
     delete_fault := λ _ _, None |}.

Import ConfigFlow.

Definition token : string := "0123456789abcdef0123456789ABCDEF".

Definition home : LocationEntity := mkLocation "loc-1" "Home".

Definition registered : AppEntity := mkApp "app-1".

(** A cloud that knows the app and one location. *)
Definition cloud_with_app : Remote :=
  {| find_app_answer := λ _, Ret (Some registered);
     refresh_answer := λ _, Ret tt;
     update_app_answer := λ _, Ret tt;
     create_app_answer := λ _, Ret (registered, mkClient "client-1" "secret-1");
     locations_answer := λ _, Ret [home] |}.

(** The same cloud without any location. *)
Definition cloud_without_locations : Remote :=
  {| find_app_answer := λ _, Ret (Some registered);
     refresh_answer := λ _, Ret tt;
     update_app_answer := λ _, Ret tt;
     create_app_answer := λ _, Ret (registered, mkClient "client-1" "secret-1");
     locations_answer := λ _, Ret [] |}.

(** A cloud that does not know the app yet, creates it on request, and
    then fails to list the locations. *)
Definition cloud_before_app : Remote :=
  {| find_app_answer := λ _, Ret None;
     refresh_answer := λ _, Ret tt;
     update_app_answer := λ _, Ret tt;
     create_app_answer := λ _, Ret (registered, mkClient "client-1" "secret-1");
     locations_answer := λ _, Raise (RemoteExn APIResponseError) |}.

(** A cloud that knows the app but fails to list the locations. *)
Definition cloud_listing_down : Remote :=
  {| find_app_answer := λ _, Ret (Some registered);
     refresh_answer := λ _, Ret tt;
     update_app_answer := λ _, Ret tt;
     create_app_answer := λ _, Ret (registered, mkClient "client-1" "secret-1");
     locations_answer := λ _, Raise (RemoteExn APIResponseError) |}.


(** The lookup of the app is refused with a response error. *)
Definition cloud_refusing : Remote :=
  {| find_app_answer := λ _, Raise (RemoteExn ClientResponseError);
     refresh_answer := λ _, Ret tt;
     update_app_answer := λ _, Ret tt;
     create_app_answer := λ _, Ret (registered, mkClient "client-1" "secret-1");
     locations_answer := λ _, Ret [home] |}.

(** The cloud cannot be reached at all. *)
Definition cloud_unreachable : Remote :=
  {| find_app_answer := λ _, Raise (RemoteExn ClientConnectionError);
     refresh_answer := λ _, Ret tt;
     update_app_answer := λ _, Ret tt;
     create_app_answer := λ _, Ret (registered, mkClient "client-1" "secret-1");
     locations_answer := λ _, Ret [home] |}.

(** A URL of the shape the client library builds. *)
Definition install_url (app location : string) : string :=
  String.append "https://account.smartthings.com/login?appId="
    (String.append app (String.append "&locationId=" location)).

(** A handler that has been through the credential step. *)
Definition validated : SmartThingsFlowHandler :=
  set_app_id (Some "app-1") (set_api (Some token)
    (set_access_token (Some token) init)).

(** The same handler with a location stored by an earlier selection. *)
Definition located : SmartThingsFlowHandler :=
  set_location_id (Some "loc-1") validated.

Definition fresh_flow : Flow := mkFlow init [] [] [].
Definition validated_flow : Flow := mkFlow validated [] [] [].
Definition located_flow : Flow := mkFlow located [] [] [].

Import UserStep.

(** A hub with a reachable webhook, one with an unreachable one, and one
    on which the endpoint cannot be set up. *)
Definition hub_ready : Hub :=
  {| current_entries := 0; endpoint_answer := λ _, Ret tt;
     webhook_url := "https://hooks.example/api/webhook/1"; webhook_valid := true |}.
Definition hub_unreachable : Hub :=
  {| current_entries := 0; endpoint_answer := λ _, Ret tt;
     webhook_url := "http://192.168.1.2:8123/api/webhook/1"; webhook_valid := false |}.
Definition hub_failing : Hub :=
  {| current_entries := 1; endpoint_answer := λ _, Raise (RemoteExn ServerTimeoutError);
     webhook_url := "https://hooks.example/api/webhook/1"; webhook_valid := true |}.

Definition entry : Entry := mkEntry fresh_flow [].

Import Webhook.

(** A decoder and an encoder for the two documents the samples use; any
    other text is no JSON as far as the samples go. *)
Definition loads (text : string) : Res Json :=
  if decide (text = "{}") then Ret (JObj [])
  else if decide (text = "null") then Ret JNull
  else Raise JSONDecodeError.

Definition dumps (value : Json) : Res string :=
  match value with
  | JObj [] => Ret "{}"
  | JNull => Ret "null"
  | _ => Raise TypeError
  end.

Definition echo : Manager := mkManager (λ data _, Ret data).

Definition hass : Hass := mkHass (Some echo) [].
Definition hass_without_manager : Hass := mkHass None [].

Definition ping : Request := mkRequest "{}" [("Content-Type", "application/json")].
Definition garbage : Request := mkRequest "<html>" [].

End Samples.

(** * Properties of the reconciler *)

Section ReconcilerFacts.
Import Reconciler.
Implicit Types (caps : gset string) (subs st : list SubscriptionEntity).
Implicit Types (s : SubscriptionEntity) (order tasks : list Task).

Lemma diff_subscriptions_fold caps subs tasks :
  foldl diff_step (caps, tasks) subs =
    (caps ∖ list_to_set (capability <$> subs),
     tasks ++ (DeleteTask <$> obsolete caps subs)).
Proof.
  revert caps tasks. induction subs as [|s subs IH]; intros caps tasks; simpl.
  - rewrite app_nil_r. f_equal. set_solver.
  - destruct (decide (capability s ∈ caps)) as [Hin|Hnin]; rewrite IH.
    + f_equal. set_solver.
    + simpl. rewrite <- app_assoc. f_equal. set_solver.
Qed.

Lemma sync_tasks_eq CAPS devices subs :
  sync_tasks CAPS devices subs =
    (DeleteTask <$> obsolete (desired_capabilities CAPS devices) subs) ++
    (CreateTask <$> elements (desired_capabilities CAPS devices
                              ∖ list_to_set (capability <$> subs))).
Proof.
  unfold sync_tasks, diff_subscriptions. by rewrite diff_subscriptions_fold.
Qed.

Lemma obsolete_subseteq caps subs : obsolete caps subs ⊆ subs.
Proof.
  revert caps. induction subs as [|s subs IH]; intros caps; simpl; [done|].
  destruct (decide _); [|specialize (IH caps)]; set_solver.
Qed.

Lemma kept_subseteq caps subs : kept caps subs ⊆ subs.
Proof.
  revert caps. induction subs as [|s subs IH]; intros caps; simpl; [done|].
  destruct (decide _); [specialize (IH (caps ∖ {[capability s]}))|]; set_solver.
Qed.

Lemma elem_of_kept_capability caps subs c :
  c ∈ capability <$> kept caps subs ↔ c ∈ caps ∧ c ∈ capability <$> subs.
Proof.
  revert caps. induction subs as [|s subs IH]; intros caps; simpl.
  - set_solver.
  - destruct (decide (capability s ∈ caps)) as [Hin|Hnin].
    + rewrite fmap_cons, !elem_of_cons, IH.
      destruct (decide (c = capability s)) as [->|]; set_solver.
    + rewrite IH, elem_of_cons. set_solver.
Qed.

Lemma NoDup_kept_capability caps subs : NoDup (capability <$> kept caps subs).
Proof.
  revert caps. induction subs as [|s subs IH]; intros caps; simpl.
  - constructor.
  - destruct (decide _); [|done].
    rewrite fmap_cons. apply NoDup_cons. split; [|done].
    rewrite elem_of_kept_capability. set_solver.
Qed.

Lemma filter_agree {A} (P Q : A → Prop) `{∀ x, Decision (P x)}
    `{∀ x, Decision (Q x)} (l : list A) :
  (∀ x, x ∈ l → P x ↔ Q x) → filter P l = filter Q l.
Proof.
  induction l as [|a l IH]; intros Hagree; [done|].
  rewrite !filter_cons.
  assert (P a ↔ Q a) as Ha by (apply Hagree; left).
  rewrite IH by (intros x Hx; apply Hagree; by right).
  destruct (decide (P a)), (decide (Q a)); tauto.
Qed.

Lemma filter_all {A} (P : A → Prop) `{∀ x, Decision (P x)} (l : list A) :
  (∀ x, x ∈ l → P x) → filter P l = l.
Proof.
  induction l as [|a l IH]; intros Hall; [done|].
  rewrite filter_cons_True by (apply Hall; left).
  f_equal. apply IH. intros x Hx. apply Hall. by right.
Qed.

(** Removing the queued identifiers from the listing leaves the kept
    subscriptions, in listing order. *)
Lemma kept_filter caps subs :
  NoDup (subscription_id <$> subs) →
  filter (λ s, subscription_id s ∉ subscription_id <$> obsolete caps subs) subs
    = kept caps subs.
Proof.
  revert caps. induction subs as [|s subs IH]; intros caps Hnd; [done|].
  rewrite fmap_cons in Hnd. apply NoDup_cons in Hnd as [Hs Hnd]. simpl.
  destruct (decide (capability s ∈ caps)) as [Hin|Hnin].
  - rewrite filter_cons_True.
    + f_equal. by apply IH.
    + intros Hmem. apply Hs. apply list_elem_of_fmap in Hmem as (x & -> & Hx).
      apply list_elem_of_fmap_2. by eapply obsolete_subseteq.
  - rewrite filter_cons_False by (rewrite fmap_cons; set_solver).
    rewrite <- (IH caps Hnd). apply filter_agree. intros x Hx.
    rewrite fmap_cons, not_elem_of_cons.
    assert (subscription_id x ≠ subscription_id s); [|tauto].
    intros Heq. apply Hs. rewrite <- Heq. by apply list_elem_of_fmap_2.
Qed.

(** With at most one subscription per capability the loop is a plain
    partition on membership in the wanted set. *)
Lemma elem_of_obsolete_NoDup caps subs s :
  NoDup (capability <$> subs) →
  s ∈ obsolete caps subs ↔ s ∈ subs ∧ capability s ∉ caps.
Proof.
  revert caps. induction subs as [|x subs IH]; intros caps Hnd; simpl.
  - set_solver.
  - rewrite fmap_cons in Hnd. apply NoDup_cons in Hnd as [Hx Hnd].
    destruct (decide (capability x ∈ caps)) as [Hin|Hnin].
    + rewrite IH by done. rewrite elem_of_cons. split.
      * intros [Hs Hc]. split; [by right|].
        intros Hcaps. apply Hc. apply elem_of_difference. split; [done|].
        intros Heq%elem_of_singleton. apply Hx. rewrite <- Heq.
        by apply list_elem_of_fmap_2.
      * intros [[->|Hs] Hc]; [done|]. split; [done|]. set_solver.
    + rewrite !elem_of_cons, IH by done. naive_solver.
Qed.

Lemma elem_of_kept_NoDup caps subs s :
  NoDup (capability <$> subs) →
  s ∈ kept caps subs ↔ s ∈ subs ∧ capability s ∈ caps.
Proof.
  revert caps. induction subs as [|x subs IH]; intros caps Hnd; simpl.
  - set_solver.
  - rewrite fmap_cons in Hnd. apply NoDup_cons in Hnd as [Hx Hnd].
    destruct (decide (capability x ∈ caps)) as [Hin|Hnin].
    + rewrite !elem_of_cons, IH by done. split.
      * intros [->|[Hs Hc]]; [by auto|]. split; [by right|]. set_solver.
      * intros [[->|Hs] Hc]; [by left|]. right. split; [done|].
        apply elem_of_difference. split; [done|].
        intros Heq%elem_of_singleton. apply Hx. rewrite <- Heq.
        by apply list_elem_of_fmap_2.
    + rewrite IH, elem_of_cons by done. naive_solver.
Qed.

(** ** Running the queued tasks *)

Lemma run_task_eq faults loc app t (w : Cloud) :
  run_task faults loc app t w =
    (Ret tt, {| remote := task_step faults loc app (remote w) t;
                calls := calls w ++ [task_call loc app t];
                logs := logs w ++ [task_log faults loc app t] |}).
Proof.
  destruct w as [st cs ls].
  destruct t as [sub|target]; unfold task_step, task_log; simpl.
  - unfold delete_subscription, try_except, api_delete_subscription.
    cbn. destruct (delete_fault faults app (subscription_id sub)); reflexivity.
  - unfold create_subscription, try_except, api_create_subscription.
    cbn. unfold new_subscription.
    destruct (create_fault faults _); reflexivity.
Qed.

Lemma gather_run_tasks faults loc app order (w : Cloud) :
  gather (run_task faults loc app <$> order) w =
    (Ret tt, {| remote := foldl (task_step faults loc app) (remote w) order;
                calls := calls w ++ (task_call loc app <$> order);
                logs := logs w ++ (task_log faults loc app <$> order) |}).
Proof.
  revert w. induction order as [|t order IH]; intros w.
  - destruct w; simpl. by rewrite !app_nil_r.
  - rewrite fmap_cons. simpl. rewrite run_task_eq, IH. simpl.
    by rewrite <- !app_assoc.
Qed.

Lemma foldl_task_step_no_faults loc app order st :
  foldl (task_step no_faults loc app) st order
    = foldl (task_effect loc app) st order.
Proof. revert st. induction order as [|[?|?] order IH]; intros st; simpl; auto. Qed.

Lemma foldl_task_step_filter faults loc app order st :
  foldl (task_step faults loc app) st order
    = foldl (task_effect loc app) st
        (filter (λ t, task_fault faults loc app t = None) order).
Proof.
  revert st. induction order as [|t order IH]; intros st; [done|].
  rewrite filter_cons. simpl. unfold task_step at 2.
  destruct (decide _) as [Heq|Hne].
  - rewrite Heq. simpl. apply IH.
  - destruct (task_fault faults loc app t); [apply IH|done].
Qed.

(** Served in any order, the deletions remove exactly the named
    subscriptions and each creation appends one new subscription: a new
    identifier never coincides with one still waiting to be deleted. *)
Lemma foldl_task_effect loc app order st :
  NoDup (del_ids order) →
  del_ids order ⊆ subscription_id <$> st →
  NoDup (subscription_id <$> st) →
  ∃ news,
    foldl (task_effect loc app) st order
      = filter (λ s, subscription_id s ∉ del_ids order) st ++ news
    ∧ capability <$> news = targets order
    ∧ Forall (λ n, installed_app_id n = app ∧ location_id n = loc
                   ∧ source_type n = CAPABILITY) news
    ∧ NoDup (subscription_id <$> foldl (task_effect loc app) st order).
Proof.
  revert st. induction order as [|t order IH]; intros st Hdel Hsub Hst.
  - exists []. simpl. rewrite app_nil_r. split_and!; auto.
    symmetry. apply filter_all. intros x _. apply not_elem_of_nil.
  - destruct t as [d|c]; simpl in *.
    + apply NoDup_cons in Hdel as [Hd Hdel].
      set (st1 := filter (λ x, subscription_id x ≠ subscription_id d) st).
      destruct (IH st1) as (news & Heq & Hcaps & Hnew & Hnd); [done| | |].
      * intros i Hi. assert (i ∈ subscription_id <$> st) as Hin by set_solver.
        apply list_elem_of_fmap in Hin as (x & -> & Hx).
        apply list_elem_of_fmap_2. apply list_elem_of_filter. split; [|done].
        intros Heq. apply Hd. by rewrite <- Heq.
      * eapply sublist_NoDup; [exact Hst|].
        apply fmap_sublist, sublist_filter.
      * exists news. split_and!; try done.
        rewrite Heq. f_equal. subst st1. rewrite list_filter_filter.
        apply filter_agree. intros x _. rewrite not_elem_of_cons. tauto.
    + set (new := stored st (new_subscription loc app c)).
      assert (subscription_id new ∉ subscription_id <$> st) as Hfresh
        by apply infinite_is_fresh.
      destruct (IH (st ++ [new])) as (news & Heq & Hcaps & Hnew & Hnd); [done| | |].
      * rewrite fmap_app. set_solver.
      * rewrite fmap_app. apply NoDup_app. split_and!; [done| |apply NoDup_singleton].
        intros i Hi ->%list_elem_of_singleton. done.
      * exists (new :: news). split_and!; try done.
        -- rewrite Heq, filter_app, <- app_assoc. f_equal.
           rewrite filter_cons_True; [done|]. set_solver.
        -- rewrite fmap_cons, Hcaps. reflexivity.
        -- by constructor.
Qed.

(** ** One pass, evaluated *)

Lemma sync_pass_eq CAPS faults schedule tok loc app devices (w : Cloud) :
  smartapp_sync_subscriptions CAPS faults schedule tok loc app devices w =
    match subscriptions_fault faults app with
    | Some e =>
        (Raise (RemoteExn e),
         {| remote := remote w;
            calls := calls w ++ [CallSubscriptions app];
            logs := logs w ++ sync_header CAPS app devices |})
    | None =>
        let tasks := sync_tasks CAPS devices (remote w) in
        let order := pass_order schedule tasks in
        (Ret tt,
         {| remote := foldl (task_step faults loc app) (remote w) order;
            calls := calls w ++ CallSubscriptions app :: (task_call loc app <$> order);
            logs := logs w ++ sync_header CAPS app devices ++
              match tasks with
              | [] => [mkLog DEBUG "Subscriptions for app '%s' are up-to-date"
                         [AStr app]]
              | _ :: _ => task_log faults loc app <$> order
              end |})
    end.
Proof.
  destruct w as [st cs ls].
  unfold smartapp_sync_subscriptions, sync_header, api_subscriptions.
  unfold mbind, M_bind, bind, log, record_call, modify, raise, ret, get.
  cbn -[desired_capabilities sync_tasks gather].
  destruct (decide (SUBSCRIPTION_WARNING_LIMIT < _));
    cbn -[desired_capabilities sync_tasks gather];
    (destruct (subscriptions_fault faults app);
     cbn -[desired_capabilities sync_tasks gather];
     [by rewrite <- !app_assoc|]);
    (destruct (sync_tasks CAPS devices st) as [|t tasks] eqn:Htasks;
     [cbn; by rewrite <- !app_assoc|]);
    unfold pass_order; rewrite gather_run_tasks; cbn;
    by rewrite <- !app_assoc.
Qed.

Lemma obsolete_sublist caps subs : obsolete caps subs `sublist_of` subs.
Proof.
  revert caps. induction subs as [|s subs IH]; intros caps; simpl; [done|].
  destruct (decide _); [apply sublist_cons|apply sublist_skip]; apply IH.
Qed.

Lemma del_ids_tasks dels creates :
  del_ids ((DeleteTask <$> dels) ++ (CreateTask <$> creates))
    = subscription_id <$> dels.
Proof.
  unfold del_ids. rewrite omap_app.
  replace (omap _ (CreateTask <$> creates)) with (@nil string)
    by (induction creates; simpl; auto).
  rewrite app_nil_r. induction dels; simpl; [done|]. by f_equal.
Qed.

Lemma targets_tasks dels creates :
  targets ((DeleteTask <$> dels) ++ (CreateTask <$> creates)) = creates.
Proof.
  unfold targets. rewrite omap_app.
  replace (omap _ (DeleteTask <$> dels)) with (@nil string)
    by (induction dels; simpl; auto).
  simpl. induction creates; simpl; [done|]. by f_equal.
Qed.

Lemma pass_order_perm schedule tasks :
  (∀ l, schedule l ≡ₚ l) → pass_order schedule tasks ≡ₚ tasks.
Proof. intros Hperm. destruct tasks; simpl; [done|apply Hperm]. Qed.

(** Whatever the order of service, a pass without failures leaves the
    kept subscriptions followed by one new subscription per capability
    that was still unmatched. *)
Lemma pass_remote CAPS loc app devices st order :
  NoDup (subscription_id <$> st) →
  order ≡ₚ sync_tasks CAPS devices st →
  ∃ news,
    foldl (task_effect loc app) st order
      = kept (desired_capabilities CAPS devices) st ++ news
    ∧ capability <$> news
        ≡ₚ elements (desired_capabilities CAPS devices
                     ∖ list_to_set (capability <$> st))
    ∧ Forall (λ n, installed_app_id n = app ∧ location_id n = loc
                   ∧ source_type n = CAPABILITY) news
    ∧ NoDup (subscription_id <$> foldl (task_effect loc app) st order).
Proof.
  intros Hst Hperm. rewrite sync_tasks_eq in Hperm.
  set (T := desired_capabilities CAPS devices) in *.
  assert (del_ids order ≡ₚ subscription_id <$> obsolete T st) as Hdel.
  { unfold del_ids at 1. rewrite Hperm. apply reflexive_eq, del_ids_tasks. }
  assert (targets order ≡ₚ elements (T ∖ list_to_set (capability <$> st)))
    as Htgt.
  { unfold targets at 1. rewrite Hperm. apply reflexive_eq, targets_tasks. }
  assert (NoDup (subscription_id <$> obsolete T st)) as Hnd.
  { eapply sublist_NoDup; [exact Hst|]. apply fmap_sublist, obsolete_sublist. }
  destruct (foldl_task_effect loc app order st) as (news & Heq & ? & ? & ?).
  - by rewrite Hdel.
  - intros i Hi. rewrite Hdel in Hi.
    apply list_elem_of_fmap in Hi as (x & -> & Hx).
    apply list_elem_of_fmap_2. by eapply obsolete_subseteq.
  - done.
  - exists news. split_and!; try done; [|congruence].
    rewrite Heq. f_equal. rewrite <- kept_filter by done.
    apply filter_agree. intros x _. by rewrite Hdel.
Qed.

Lemma pass_capabilities CAPS devices st news :
  capability <$> news
    ≡ₚ elements (desired_capabilities CAPS devices
                 ∖ list_to_set (capability <$> st)) →
  NoDup (capability <$> (kept (desired_capabilities CAPS devices) st ++ news))
  ∧ ∀ c, c ∈ capability <$> (kept (desired_capabilities CAPS devices) st ++ news)
         ↔ c ∈ desired_capabilities CAPS devices.
Proof.
  set (T := desired_capabilities CAPS devices). intros Hnews.
  rewrite fmap_app. split.
  - rewrite Hnews. apply NoDup_app. split_and!.
    + apply NoDup_kept_capability.
    + intros c [_ Hc]%elem_of_kept_capability Hin%elem_of_elements.
      set_solver.
    + apply NoDup_elements.
  - intros c.
    rewrite Hnews, elem_of_app, elem_of_kept_capability, elem_of_elements.
    destruct (decide (c ∈ capability <$> st)); set_solver.
Qed.

Lemma elem_of_available devices (acc : gset string) c :
  c ∈ foldl (λ acc device, acc ∪ list_to_set (capabilities device)) acc devices
  ↔ c ∈ acc ∨ ∃ d, d ∈ devices ∧ c ∈ capabilities d.
Proof.
  revert acc. induction devices as [|d devices IH]; intros acc; simpl.
  - set_solver.
  - rewrite IH, elem_of_union, elem_of_list_to_set. split.
    + intros [[?|?]|(d' & ? & ?)]; [by left|right; exists d|right; exists d'];
        set_solver.
    + intros [?|(d' & [->|?]%elem_of_cons & ?)]; [by auto|by auto|].
      right. by exists d'.
Qed.

(** The wanted set is the union of the device capabilities, cut down to
    the allowlist, minus the ignored capabilities. *)
Lemma elem_of_desired_capabilities CAPS devices c :
  c ∈ desired_capabilities CAPS devices
  ↔ (∃ d, d ∈ devices ∧ c ∈ capabilities d)
    ∧ c ∈ CAPS ∧ c ∉ IGNORED_CAPABILITIES.
Proof.
  unfold desired_capabilities.
  rewrite elem_of_difference, elem_of_intersection, !elem_of_list_to_set,
    elem_of_available.
  set_solver.
Qed.

Lemma NoDup_sync_tasks CAPS devices st :
  NoDup (subscription_id <$> st) → NoDup (sync_tasks CAPS devices st).
Proof.
  intros Hst. rewrite sync_tasks_eq. apply NoDup_app. split_and!.
  - apply NoDup_fmap_2; [by intros ?? [=]|].
    eapply sublist_NoDup; [|apply obsolete_sublist]. by eapply NoDup_fmap_1.
  - intros t (x & -> & _)%list_elem_of_fmap (c & [=] & _)%list_elem_of_fmap.
  - apply NoDup_fmap_2; [by intros ?? [=]|]. apply NoDup_elements.
Qed.

Lemma elem_of_sync_tasks_create CAPS devices st c :
  CreateTask c ∈ sync_tasks CAPS devices st
  ↔ c ∈ desired_capabilities CAPS devices ∧ c ∉ capability <$> st.
Proof.
  rewrite sync_tasks_eq, elem_of_app. split.
  - intros [(x & [=] & _)%list_elem_of_fmap|(c' & [= ->] & Hc)%list_elem_of_fmap].
    apply elem_of_elements in Hc. set_solver.
  - intros [? ?]. right. apply list_elem_of_fmap_2, elem_of_elements. set_solver.
Qed.

Lemma elem_of_sync_tasks_delete CAPS devices st s :
  DeleteTask s ∈ sync_tasks CAPS devices st
  ↔ s ∈ obsolete (desired_capabilities CAPS devices) st.
Proof.
  rewrite sync_tasks_eq, elem_of_app. split.
  - by intros [(x & [= ->] & ?)%list_elem_of_fmap|(c' & [=] & _)%list_elem_of_fmap].
  - intros ?. left. by apply list_elem_of_fmap_2.
Qed.

(** C2. Convergence: with at most one subscription per capability on the
    cloud and every call succeeding, one pass, in whatever order its calls
    are served, leaves exactly one subscription for each capability of the
    wanted set T (the union of the device capabilities, restricted to the
    allowlist, minus the ignored ones) and none for any other. A create
    is queued for each capability of T that has no subscription, a delete
    for each subscription whose capability is outside T, each once, and
    the matching subscriptions are still there afterwards. *)
Theorem sync_converges CAPS schedule tok loc app devices (w : Cloud) :
  (∀ l, schedule l ≡ₚ l) →
  NoDup (subscription_id <$> remote w) →
  NoDup (capability <$> remote w) →
  let T := desired_capabilities CAPS devices in
  let tasks := sync_tasks CAPS devices (remote w) in
  (∀ c, c ∈ T ↔ (∃ d, d ∈ devices ∧ c ∈ capabilities d)
                ∧ c ∈ CAPS ∧ c ∉ IGNORED_CAPABILITIES)
  ∧ ∃ w' order,
      smartapp_sync_subscriptions CAPS no_faults schedule tok loc app devices w
        = (Ret tt, w')
      ∧ NoDup (capability <$> remote w')
      ∧ (∀ c, c ∈ capability <$> remote w' ↔ c ∈ T)
      ∧ NoDup tasks
      ∧ (∀ c, CreateTask c ∈ tasks ↔ c ∈ T ∧ c ∉ capability <$> remote w)
      ∧ (∀ s, DeleteTask s ∈ tasks ↔ s ∈ remote w ∧ capability s ∉ T)
      ∧ (∀ s, s ∈ remote w → capability s ∈ T → s ∈ remote w')
      ∧ (∀ s, s ∈ remote w → capability s ∉ T → s ∉ remote w')
      ∧ order ≡ₚ tasks
      ∧ calls w' = calls w ++ CallSubscriptions app :: (task_call loc app <$> order).
Proof.
  intros Hperm Hids Hcaps T tasks. split; [apply elem_of_desired_capabilities|].
  rewrite sync_pass_eq. simpl. fold tasks.
  set (order := pass_order schedule tasks).
  assert (order ≡ₚ tasks) as Horder by by apply pass_order_perm.
  destruct (pass_remote CAPS loc app devices (remote w) order Hids Horder)
    as (news & Heq & Hnews & _ & _).
  destruct (pass_capabilities CAPS devices (remote w) news Hnews) as [Hnd Hset].
  eexists _, order. split; [reflexivity|]. simpl.
  rewrite foldl_task_step_no_faults, Heq. fold T in Hnd, Hset |- *.
  split_and!; try done.
  - by apply NoDup_sync_tasks.
  - apply elem_of_sync_tasks_create.
  - intros s. unfold tasks. rewrite elem_of_sync_tasks_delete.
    by apply elem_of_obsolete_NoDup.
  - intros s Hs HT. apply elem_of_app. left. by apply elem_of_kept_NoDup.
  - intros s Hs HT [Hk|Hn]%elem_of_app.
    + apply elem_of_kept_NoDup in Hk as [_ ?]; done.
    + assert (capability s ∈ capability <$> news) as Hc
        by by apply list_elem_of_fmap_2.
      rewrite Hnews in Hc. apply elem_of_elements in Hc. set_solver.
Qed.

(** ** Duplicates in the listing *)

Lemma obsolete_app caps l1 l2 :
  obsolete caps (l1 ++ l2)
    = obsolete caps l1
      ++ obsolete (caps ∖ list_to_set (capability <$> l1)) l2.
Proof.
  revert caps. induction l1 as [|x l1 IH]; intros caps.
  - simpl. f_equal. set_solver.
  - cbn [obsolete app]. rewrite fmap_cons, list_to_set_cons.
    destruct (decide (capability x ∈ caps)) as [Hin|Hnin]; rewrite IH; cbn [app].
    + by replace (caps ∖ {[capability x]} ∖ list_to_set (capability <$> l1))
        with (caps ∖ ({[capability x]} ∪ list_to_set (capability <$> l1)))
        by set_solver.
    + by replace (caps ∖ list_to_set (capability <$> l1))
        with (caps ∖ ({[capability x]} ∪ list_to_set (capability <$> l1)))
        by set_solver.
Qed.

Lemma kept_app caps l1 l2 :
  kept caps (l1 ++ l2)
    = kept caps l1 ++ kept (caps ∖ list_to_set (capability <$> l1)) l2.
Proof.
  revert caps. induction l1 as [|x l1 IH]; intros caps.
  - simpl. f_equal. set_solver.
  - cbn [kept app]. rewrite fmap_cons, list_to_set_cons.
    destruct (decide (capability x ∈ caps)) as [Hin|Hnin]; rewrite IH; cbn [app].
    + by replace (caps ∖ {[capability x]} ∖ list_to_set (capability <$> l1))
        with (caps ∖ ({[capability x]} ∪ list_to_set (capability <$> l1)))
        by set_solver.
    + by replace (caps ∖ list_to_set (capability <$> l1))
        with (caps ∖ ({[capability x]} ∪ list_to_set (capability <$> l1)))
        by set_solver.
Qed.

Lemma elem_of_obsolete_unwanted caps subs s :
  s ∈ subs → capability s ∉ caps → s ∈ obsolete caps subs.
Proof.
  revert caps. induction subs as [|x subs IH]; intros caps Hs Hc; simpl.
  - by apply elem_of_nil in Hs.
  - apply elem_of_cons in Hs as [->|Hs].
    + rewrite decide_False by done. by left.
    + destruct (decide _); [|right]; apply IH; set_solver.
Qed.

Lemma kept_not_obsolete caps subs s :
  NoDup (subscription_id <$> subs) →
  s ∈ kept caps subs → s ∉ obsolete caps subs.
Proof.
  intros Hnd Hk Ho. rewrite <- kept_filter in Hk by done.
  apply list_elem_of_filter in Hk as [Hid _]. apply Hid.
  by apply list_elem_of_fmap_2.
Qed.

(** C9. When the listing holds several subscriptions for one wanted
    capability, the pass leaves the first of them in listing order alone
    and queues a delete for each later one; after a pass whose calls all
    succeed the first is still on the cloud, the later ones are gone, and
    no capability has two subscriptions. *)
Theorem sync_removes_duplicates CAPS schedule tok loc app devices
    (w : Cloud) l1 s l2 :
  (∀ l, schedule l ≡ₚ l) →
  NoDup (subscription_id <$> remote w) →
  remote w = l1 ++ s :: l2 →
  capability s ∈ desired_capabilities CAPS devices →
  capability s ∉ capability <$> l1 →
  let tasks := sync_tasks CAPS devices (remote w) in
  (DeleteTask s ∉ tasks)
  ∧ (∀ s', s' ∈ l2 → capability s' = capability s → DeleteTask s' ∈ tasks)
  ∧ ∃ w',
      smartapp_sync_subscriptions CAPS no_faults schedule tok loc app devices w
        = (Ret tt, w')
      ∧ s ∈ remote w'
      ∧ (∀ s', s' ∈ l2 → capability s' = capability s → s' ∉ remote w')
      ∧ NoDup (capability <$> remote w').
Proof.
  intros Hperm Hids Hsplit HT Hfirst tasks.
  set (T := desired_capabilities CAPS devices) in *.
  assert (s ∈ kept T (remote w)) as Hkept.
  { rewrite Hsplit, kept_app. apply elem_of_app. right. simpl.
    rewrite decide_True; [by left|].
    apply elem_of_difference. split; [done|]. by rewrite elem_of_list_to_set. }
  assert (∀ s', s' ∈ l2 → capability s' = capability s →
                s' ∈ obsolete T (remote w)) as Hlater.
  { intros s' Hs' Hc. rewrite Hsplit, obsolete_app. apply elem_of_app. right.
    simpl. rewrite decide_True
      by (apply elem_of_difference; split; [done|by rewrite elem_of_list_to_set]).
    apply elem_of_obsolete_unwanted; [done|]. rewrite Hc. set_solver. }
  split_and!.
  - unfold tasks. rewrite elem_of_sync_tasks_delete. by apply kept_not_obsolete.
  - intros s' Hs' Hc. unfold tasks. rewrite elem_of_sync_tasks_delete. auto.
  - rewrite sync_pass_eq. simpl. fold tasks.
    set (order := pass_order schedule tasks).
    assert (order ≡ₚ tasks) as Horder by by apply pass_order_perm.
    destruct (pass_remote CAPS loc app devices (remote w) order Hids Horder)
      as (news & Heq & Hnews & _ & _).
    destruct (pass_capabilities CAPS devices (remote w) news Hnews) as [Hnd _].
    eexists. split; [reflexivity|]. simpl.
    rewrite foldl_task_step_no_faults, Heq. fold T. split_and!; [|  |done].
    + apply elem_of_app. by left.
    + intros s' Hs' Hc [Hk|Hn]%elem_of_app.
      * by eapply kept_not_obsolete, Hlater.
      * assert (capability s' ∈ capability <$> news) as Hin
          by by apply list_elem_of_fmap_2.
        rewrite Hnews in Hin. apply elem_of_elements in Hin.
        apply elem_of_difference in Hin as [_ Hin]. apply Hin.
        rewrite elem_of_list_to_set. apply list_elem_of_fmap_2.
        rewrite Hsplit. set_solver.
Qed.

(** ** A cloud already in step with the devices *)

Lemma sync_tasks_in_step CAPS devices st :
  NoDup (capability <$> st) →
  (∀ c, c ∈ capability <$> st ↔ c ∈ desired_capabilities CAPS devices) →
  sync_tasks CAPS devices st = [].
Proof.
  intros Hnd Hstep. rewrite sync_tasks_eq.
  set (T := desired_capabilities CAPS devices) in *.
  assert (obsolete T st = []) as ->.
  { apply elem_of_nil_inv. intros s [Hs Hc]%elem_of_obsolete_NoDup; [|done].
    apply Hc, Hstep. by apply list_elem_of_fmap_2. }
  assert (T ∖ list_to_set (capability <$> st) = ∅) as ->.
  { apply set_eq. intros c. rewrite elem_of_difference, elem_of_list_to_set, Hstep.
    set_solver. }
  by rewrite elements_empty.
Qed.

(** C3. Idempotence: when the cloud holds exactly one subscription for
    each wanted capability and no other, the task list of a pass is empty;
    the pass makes the listing call and no other, and leaves the cloud as
    it was; so does a second pass run right after it. *)
Theorem sync_idempotent CAPS faults1 faults2 schedule1 schedule2 tok loc app
    devices (w : Cloud) :
  NoDup (capability <$> remote w) →
  (∀ c, c ∈ capability <$> remote w ↔ c ∈ desired_capabilities CAPS devices) →
  let run1 :=
    smartapp_sync_subscriptions CAPS faults1 schedule1 tok loc app devices w in
  let run2 :=
    smartapp_sync_subscriptions CAPS faults2 schedule2 tok loc app devices
      run1.2 in
  sync_tasks CAPS devices (remote w) = []
  ∧ remote run1.2 = remote w
  ∧ calls run1.2 = calls w ++ [CallSubscriptions app]
  ∧ (subscriptions_fault faults1 app = None → run1.1 = Ret tt)
  ∧ sync_tasks CAPS devices (remote run1.2) = []
  ∧ remote run2.2 = remote w
  ∧ calls run2.2 = calls w ++ [CallSubscriptions app; CallSubscriptions app]
  ∧ (subscriptions_fault faults1 app = None →
     subscriptions_fault faults2 app = None → run2.1 = Ret tt).
Proof.
  intros Hnd Hstep run1 run2.
  pose proof (sync_tasks_in_step CAPS devices (remote w) Hnd Hstep) as Htasks.
  assert (remote run1.2 = remote w
          ∧ calls run1.2 = calls w ++ [CallSubscriptions app]
          ∧ (subscriptions_fault faults1 app = None → run1.1 = Ret tt))
    as (Hr1 & Hc1 & Hok1).
  { subst run1. rewrite sync_pass_eq, Htasks.
    destruct (subscriptions_fault faults1 app); simpl; auto. by split_and!. }
  assert (remote run2.2 = remote run1.2
          ∧ calls run2.2 = calls run1.2 ++ [CallSubscriptions app]
          ∧ (subscriptions_fault faults2 app = None → run2.1 = Ret tt))
    as (Hr2 & Hc2 & Hok2).
  { subst run2. rewrite sync_pass_eq, Hr1, Htasks.
    destruct (subscriptions_fault faults2 app); simpl; auto. by split_and!. }
  split_and!; auto; try congruence.
  rewrite Hc2, Hc1, <- app_assoc. done.
Qed.

(** After a pass whose calls all succeeded, a further pass has nothing
    to do, whatever the cloud held before. *)
Lemma sync_settles CAPS schedule tok loc app devices (w : Cloud) :
  (∀ l, schedule l ≡ₚ l) →
  NoDup (subscription_id <$> remote w) →
  sync_tasks CAPS devices
    (remote (smartapp_sync_subscriptions CAPS no_faults schedule
               tok loc app devices w).2) = [].
Proof.
  intros Hperm Hids. rewrite sync_pass_eq. simpl.
  set (tasks := sync_tasks CAPS devices (remote w)).
  set (order := pass_order schedule tasks).
  assert (order ≡ₚ tasks) as Horder by by apply pass_order_perm.
  destruct (pass_remote CAPS loc app devices (remote w) order Hids Horder)
    as (news & Heq & Hnews & _ & _).
  destruct (pass_capabilities CAPS devices (remote w) news Hnews) as [Hnd Hset].
  rewrite foldl_task_step_no_faults, Heq. by apply sync_tasks_in_step.
Qed.

(** ** Failing calls *)

Lemma task_log_level faults loc app t :
  log_level (task_log faults loc app t)
    = match task_fault faults loc app t with
      | Some _ => ERROR
      | None => DEBUG
      end.
Proof. unfold task_log. by destruct t, (task_fault faults loc app _). Qed.

Lemma sync_header_no_error CAPS app devices :
  filter (λ r, log_level r = ERROR) (sync_header CAPS app devices) = [].
Proof.
  unfold sync_header. cbv zeta.
  by destruct (decide (SUBSCRIPTION_WARNING_LIMIT < _)).
Qed.

Lemma filter_task_logs faults loc app (order : list Task) :
  filter (λ r, log_level r = ERROR) (task_log faults loc app <$> order)
    = task_log faults loc app
        <$> filter (λ t, is_Some (task_fault faults loc app t)) order.
Proof.
  induction order as [|t order IH]; [done|].
  rewrite fmap_cons, !filter_cons, IH, task_log_level.
  destruct (task_fault faults loc app t) as [e|] eqn:Hfault.
  - rewrite decide_True by done. by rewrite decide_True by eauto.
  - rewrite decide_False by done.
    by rewrite decide_False by (by intros [? ?]).
Qed.

(** C4, as the code has it. An error raised by the listing call is not
    absorbed: it leaves the pass as an exception, with the listing as the
    only call made and the cloud untouched. When the listing succeeds, an
    error raised by any create or delete call is logged and absorbed: the
    pass returns normally, every queued task makes its call, every call
    that does not fail takes effect, and the ERROR records the pass writes
    are the records of the failing tasks, one for each, in the order in
    which the calls were served. *)
Theorem sync_absorbs_task_errors CAPS faults schedule tok loc app devices
    (w : Cloud) :
  (∀ l, schedule l ≡ₚ l) →
  let tasks := sync_tasks CAPS devices (remote w) in
  let run :=
    smartapp_sync_subscriptions CAPS faults schedule tok loc app devices w in
  match subscriptions_fault faults app with
  | Some e =>
      run.1 = Raise (RemoteExn e)
      ∧ remote run.2 = remote w
      ∧ calls run.2 = calls w ++ [CallSubscriptions app]
  | None =>
      ∃ order written,
        run.1 = Ret tt
        ∧ order ≡ₚ tasks
        ∧ calls run.2
            = calls w ++ CallSubscriptions app :: (task_call loc app <$> order)
        ∧ (∀ t, t ∈ tasks → task_call loc app t ∈ calls run.2)
        ∧ remote run.2
            = foldl (task_effect loc app) (remote w)
                (filter (λ t, task_fault faults loc app t = None) order)
        ∧ logs run.2 = logs w ++ written
        ∧ filter (λ r, log_level r = ERROR) written
            = task_log faults loc app
                <$> filter (λ t, is_Some (task_fault faults loc app t)) order
  end.
Proof.
  intros Hperm tasks run. subst run. rewrite sync_pass_eq.
  destruct (subscriptions_fault faults app) as [e|]; [done|].
  cbv zeta. fold tasks.
  set (order := pass_order schedule tasks).
  assert (order ≡ₚ tasks) as Horder by by apply pass_order_perm.
  eexists order, _. cbn [fst snd remote calls logs].
  split_and!; try done.
  - intros t Ht. apply elem_of_app. right. right.
    apply list_elem_of_fmap_2. by rewrite Horder.
  - apply foldl_task_step_filter.
  - rewrite filter_app, sync_header_no_error, app_nil_l.
    subst order. destruct tasks as [|t0 tasks']; [done|].
    apply filter_task_logs.
Qed.
End ReconcilerFacts.

(** * Properties of the handshake *)

Section FlowFacts.
Import Regex ConfigFlow.
Implicit Types (w : Flow) (d : gmap string string) (token : string).

Ltac flow_unfold :=
  unfold async_step_pat, async_step_select_location, async_step_authorize,
    _show_step_pat, setup_smartapp, try_except, await, attribute,
    mbind, M_bind, bind, log, record_call, assign, modify, raise, ret, get.

(** Reduction that leaves dictionaries and the matcher alone. *)
Ltac flow_cbn := cbn -[insert lookup empty locations_options].

(** ** The credential pattern *)

Lemma re_match_alternatives a b text :
  re_match (Seq Bol (Seq (Alt a b) Eol)) text
    = re_match (Seq Bol (Seq a Eol)) text
      || re_match (Seq Bol (Seq b Eol)) text.
Proof.
  unfold re_match. cbn [step fst].
  change (mbind ?f ?l) with (list_bind _ _ f l).
  cbn [list_bind]. rewrite !app_nil_r.
  change (list_bind _ _ ?f ?l) with (mbind f l).
  rewrite bind_app.
  match goal with
  | |- context [match ?l ++ ?k with [] => _ | _ :: _ => _ end] =>
      by destruct l, k
  end.
Qed.

Lemma VAL_UID_alternatives text :
  VAL_UID_MATCHER_match text
    = re_match VAL_HEX32 text || re_match VAL_HYPHENATED text.
Proof. apply re_match_alternatives. Qed.

(** C7. A credential that matches neither the 32-hexadecimal-character
    pattern nor the hyphenated pattern is answered with the credential
    form carrying the format error; no call is awaited, no app is
    registered, and nothing but the submitted text is stored. *)
Theorem pat_rejects_malformed remote fmt d token w :
  d !! CONF_ACCESS_TOKEN = Some token →
  re_match VAL_HEX32 token = false →
  re_match VAL_HYPHENATED token = false →
  ∃ w',
    async_step_pat remote fmt (Some d) w
      = (Ret (ShowForm "pat" TokenSchema
                (<[CONF_ACCESS_TOKEN := "token_invalid_format"]> ∅)), w')
    ∧ calls w' = calls w
    ∧ smartapps w' = smartapps w
    ∧ self w' = set_access_token (Some token) (self w).
Proof.
  intros Hd Hhex Hhyp. unfold async_step_pat. cbn [mbind option_bind].
  rewrite Hd, VAL_UID_alternatives, Hhex, Hhyp. cbn [negb orb].
  flow_unfold. flow_cbn.
  eexists. split; [reflexivity|]. by split_and!.
Qed.

(** ** Errors while the credential is validated *)

Lemma validation_calls_no_listing remote token t :
  CallLocations t ∉ validation_calls remote token.
Proof.
  unfold validation_calls.
  destruct (find_app_answer remote token) as [[app|]|];
    [destruct (refresh_answer remote app)| |];
    rewrite ?elem_of_cons, elem_of_nil; naive_solver.
Qed.

(** What the credential step does with a well-formed credential whose
    validation meets an exception: the handler of lines 120-123 takes the
    two response-error classes and nothing else. *)
Lemma pat_validation_error remote fmt d token w ex :
  d !! CONF_ACCESS_TOKEN = Some token →
  VAL_UID_MATCHER_match token = true →
  validation_error remote token = Some ex →
  ∃ w',
    async_step_pat remote fmt (Some d) w
      = (if is_response_error ex
         then Ret (ShowForm "pat" TokenSchema (<["base" := "app_setup_error"]> ∅))
         else Raise ex, w')
    ∧ calls w' = calls w ++ validation_calls remote token
    ∧ smartapps w' = smartapps w
    ∧ location_id (self w') = location_id (self w)
    ∧ installed_app_id (self w') = installed_app_id (self w).
Proof.
  intros Hd Hok Herr. unfold async_step_pat. cbn [mbind option_bind].
  rewrite Hd, Hok. cbn [negb]. flow_unfold. flow_cbn.
  unfold validation_error, validation_calls in *.
  destruct (find_app_answer remote token) as [[app|]|e]; flow_cbn.
  - destruct (refresh_answer remote app) as [[]|e]; flow_cbn.
    + destruct (update_app_answer remote app) as [[]|e]; [done|].
      simplify_eq. flow_cbn. destruct (is_response_error ex); flow_cbn;
        eexists; (split; [reflexivity|]); flow_cbn; by rewrite <- ?app_assoc.
    + simplify_eq. destruct (is_response_error ex); flow_cbn;
        eexists; (split; [reflexivity|]); flow_cbn; by rewrite <- ?app_assoc.
  - destruct (create_app_answer remote token) as [[app client]|e]; [done|].
    simplify_eq. flow_cbn. destruct (is_response_error ex); flow_cbn;
      eexists; (split; [reflexivity|]); flow_cbn; by rewrite <- ?app_assoc.
  - simplify_eq. destruct (is_response_error ex); flow_cbn;
      eexists; (split; [reflexivity|]); flow_cbn; by rewrite <- ?app_assoc.
Qed.

(** C5, as the code has it. When looking up, refreshing, updating or
    creating the app registration raises [APIResponseError] or
    [ClientResponseError], the credential step answers with its own form
    carrying the error [app_setup_error]: no location is listed, no app is
    registered locally, no location is stored. *)
Theorem pat_response_error_stays remote fmt d token w e :
  d !! CONF_ACCESS_TOKEN = Some token →
  VAL_UID_MATCHER_match token = true →
  validation_error remote token = Some (RemoteExn e) →
  e = APIResponseError ∨ e = ClientResponseError →
  ∃ w',
    async_step_pat remote fmt (Some d) w
      = (Ret (ShowForm "pat" TokenSchema (<["base" := "app_setup_error"]> ∅)), w')
    ∧ (∀ t, CallLocations t ∈ calls w' → CallLocations t ∈ calls w)
    ∧ smartapps w' = smartapps w
    ∧ location_id (self w') = location_id (self w).
Proof.
  intros Hd Hok Herr He.
  destruct (pat_validation_error remote fmt d token w _ Hd Hok Herr)
    as (w' & Heq & Hcalls & Happs & Hloc & _).
  exists w'. split_and!; try done.
  - rewrite Heq. by destruct He as [-> | ->].
  - intros t. rewrite Hcalls, elem_of_app. intros [?|Hin]; [done|].
    by apply validation_calls_no_listing in Hin.
Qed.

(** ** Location selection *)

Lemma authorize_calls fmt user_input w :
  calls (async_step_authorize fmt user_input w).2 = calls w.
Proof.
  flow_unfold. destruct (truthy user_input); flow_cbn.
  - destruct (location_id (self w)); flow_cbn; [|done].
    destruct (app_id (self w)); done.
  - destruct (app_id (self w)); flow_cbn; [|done].
    destruct (location_id (self w)); done.
Qed.

Lemma authorize_prompt_self fmt w :
  self (async_step_authorize fmt None w).2 = self w.
Proof.
  flow_unfold. flow_cbn. destruct (app_id (self w)); flow_cbn; [|done].
  destruct (location_id (self w)); done.
Qed.

(** C6, as the code has it. The step looks at its input only. Without a
    location in the input it lists the locations again, whether or not a
    selection was stored before, and stores nothing; with a location in the
    input it stores it, lists nothing and hands over to the authorization
    step. *)
Theorem select_location_follows_input remote fmt user_input w :
  let run := async_step_select_location remote fmt user_input w in
  match user_input ≫= (.!! CONF_LOCATION_ID) with
  | None =>
      self run.2 = self w
      ∧ match api (self w) with
        | Some token => calls run.2 = calls w ++ [CallLocations token]
        | None => run.1 = Raise (AttributeError "api") ∧ calls run.2 = calls w
        end
  | Some selected =>
      run = async_step_authorize fmt None
              {| self := set_location_id (Some selected) (self w);
                 calls := calls w;
                 smartapps := smartapps w;
                 logs := logs w ++ [mkLog DEBUG "Location selected: %s"
                                      [AStr selected]] |}
      ∧ calls run.2 = calls w
      ∧ location_id (self run.2) = Some selected
  end.
Proof.
  intros run. subst run. unfold async_step_select_location.
  destruct (user_input ≫= (.!! CONF_LOCATION_ID)) as [selected|].
  - set (w1 := {| self := set_location_id (Some selected) (self w) |}).
    assert (∀ A (c : M Flow A),
              (assign (set_location_id (Some selected)) ;;
               log DEBUG "Location selected: %s" [AStr selected] ;; c) w
              = c w1) as -> by done.
    split_and!; [done|by rewrite authorize_calls|].
    by rewrite authorize_prompt_self.
  - flow_unfold. flow_cbn. destruct (api (self w)) as [token|]; flow_cbn; [|done].
    destruct (locations_answer remote token) as [locations|e]; flow_cbn; [|done].
    by destruct (decide (locations_options locations = ∅)).
Qed.

(** C8. When the listing of the locations comes back empty, the step ends
    the flow with the reason [no_available_locations]: the result is no
    entry and no authorization prompt, the authorization step has logged
    nothing, and the handler is as it was. *)
Theorem select_location_no_locations remote fmt user_input token w :
  user_input ≫= (.!! CONF_LOCATION_ID) = None →
  api (self w) = Some token →
  locations_answer remote token = Ret [] →
  ∃ w',
    async_step_select_location remote fmt user_input w
      = (Ret (Abort "no_available_locations"), w')
    ∧ self w' = self w
    ∧ calls w' = calls w ++ [CallLocations token]
    ∧ smartapps w' = smartapps w
    ∧ logs w' = logs w ++
        [mkLog DEBUG "Fetching available SmartThings locations." [];
         mkLog ERROR "No available locations found." []].
Proof.
  intros Hin Hapi Hloc. unfold async_step_select_location. rewrite Hin.
  flow_unfold. flow_cbn. rewrite Hapi. flow_cbn. rewrite Hloc. flow_cbn.
  eexists. split; [reflexivity|]. flow_cbn. by rewrite <- ?app_assoc.
Qed.

(** ** Completion *)

(** The terminal step, given a callback payload that is not empty: the
    entry is built from whatever the handler holds. *)
Lemma authorize_creates_entry fmt payload w app loc :
  payload ≠ ∅ →
  app_id (self w) = Some app →
  location_id (self w) = Some loc →
  ∃ w' data,
    async_step_authorize fmt (Some payload) w
      = (Ret (CreateEntry "SmartThings" data), w')
    ∧ data !! CONF_ACCESS_TOKEN = Some (access_token (self w))
    ∧ data !! CONF_REFRESH_TOKEN = Some (payload !! CONF_REFRESH_TOKEN)
    ∧ data !! CONF_CLIENT_ID = Some (oauth_client_id (self w))
    ∧ data !! CONF_CLIENT_SECRET = Some (oauth_client_secret (self w))
    ∧ data !! CONF_LOCATION_ID = Some (Some loc)
    ∧ data !! CONF_APP_ID = Some (Some app)
    ∧ data !! CONF_INSTALLED_APP_ID = Some (payload !! CONF_INSTALLED_APP_ID).
Proof.
  intros Hpayload Happ Hloc. flow_unfold.
  unfold truthy. rewrite bool_decide_eq_true_2 by done. flow_cbn.
  rewrite Hloc. flow_cbn. rewrite Happ. flow_cbn.
  eexists _, _. split; [reflexivity|].
  unfold CONF_ACCESS_TOKEN, CONF_REFRESH_TOKEN, CONF_CLIENT_ID,
    CONF_CLIENT_SECRET, CONF_LOCATION_ID, CONF_APP_ID, CONF_INSTALLED_APP_ID.
  split_and!; by simplify_map_eq.
Qed.

(** With a location in its input the selection step stores it and hands
    over to the authorization step. *)
Lemma select_location_selected remote fmt d selected w :
  d !! CONF_LOCATION_ID = Some selected →
  async_step_select_location remote fmt (Some d) w
    = async_step_authorize fmt None
        {| self := set_location_id (Some selected) (self w);
           calls := calls w;
           smartapps := smartapps w;
           logs := logs w ++ [mkLog DEBUG "Location selected: %s"
                                [AStr selected]] |}.
Proof.
  intros Hsel. unfold async_step_select_location.
  cbn [mbind option_bind]. by rewrite Hsel.
Qed.

(** The credential step on the path that finds an existing registration
    and then lists at least one location. *)
Lemma pat_found remote fmt d token app locations w :
  d !! CONF_ACCESS_TOKEN = Some token →
  VAL_UID_MATCHER_match token = true →
  find_app_answer remote token = Ret (Some app) →
  refresh_answer remote app = Ret tt →
  update_app_answer remote app = Ret tt →
  locations_answer remote token = Ret locations →
  locations_options locations ≠ ∅ →
  ∃ w',
    async_step_pat remote fmt (Some d) w
      = (Ret (ShowForm "select_location"
                (LocationSchema (locations_options locations)) ∅), w')
    ∧ self w'
        = set_app_id (Some (app_app_id app))
            (set_api (Some token) (set_access_token (Some token) (self w)))
    ∧ smartapps w' = smartapps w ++ [app].
Proof.
  intros Hd Hok Hfind Hrefresh Hupdate Hlocs Hne.
  unfold async_step_pat. cbn [mbind option_bind].
  rewrite Hd, Hok. cbn [negb]. flow_unfold. flow_cbn.
  rewrite Hfind. flow_cbn. rewrite Hrefresh. flow_cbn.
  rewrite Hupdate. flow_cbn.
  rewrite Hlocs. flow_cbn. rewrite decide_False by done.
  eexists. split; [reflexivity|]. done.
Qed.

(** C10, as the code has it. The terminal step checks nothing about the
    fields it has gathered. Given a callback payload that is not empty, and
    an app id and a location id stored before, it makes the entry with the
    client id and the client secret exactly as the handler holds them, and
    with the installed app id and the refresh token as the payload holds
    them, [None] for a key the payload lacks. A credential step that finds
    an existing registration leaves the client id and secret of the handler
    as they were: the entry of such a flow has for them what the handler
    held before that step, [None] when it held [None]. *)
Theorem complete_without_validation remote fmt :
  (∀ payload w app loc,
     payload ≠ ∅ →
     app_id (self w) = Some app →
     location_id (self w) = Some loc →
     ∃ w' data,
       async_step_authorize fmt (Some payload) w
         = (Ret (CreateEntry "SmartThings" data), w')
       ∧ data !! CONF_CLIENT_ID = Some (oauth_client_id (self w))
       ∧ data !! CONF_CLIENT_SECRET = Some (oauth_client_secret (self w))
       ∧ data !! CONF_INSTALLED_APP_ID = Some (payload !! CONF_INSTALLED_APP_ID)
       ∧ data !! CONF_REFRESH_TOKEN = Some (payload !! CONF_REFRESH_TOKEN)
       ∧ data !! CONF_ACCESS_TOKEN = Some (access_token (self w))
       ∧ data !! CONF_LOCATION_ID = Some (Some loc)
       ∧ data !! CONF_APP_ID = Some (Some app))
  ∧ (∀ d_pat token app locations d_loc selected payload w,
       d_pat !! CONF_ACCESS_TOKEN = Some token →
       VAL_UID_MATCHER_match token = true →
       find_app_answer remote token = Ret (Some app) →
       refresh_answer remote app = Ret tt →
       update_app_answer remote app = Ret tt →
       locations_answer remote token = Ret locations →
       locations_options locations ≠ ∅ →
       d_loc !! CONF_LOCATION_ID = Some selected →
       payload ≠ ∅ →
       ∃ w1 w2 w3 data,
         async_step_pat remote fmt (Some d_pat) w
           = (Ret (ShowForm "select_location"
                     (LocationSchema (locations_options locations)) ∅), w1)
         ∧ async_step_select_location remote fmt (Some d_loc) w1
           = (Ret (ExternalStep "authorize" (fmt (app_app_id app) selected)), w2)
         ∧ async_step_authorize fmt (Some payload) w2
           = (Ret (CreateEntry "SmartThings" data), w3)
         ∧ data !! CONF_CLIENT_ID = Some (oauth_client_id (self w))
         ∧ data !! CONF_CLIENT_SECRET = Some (oauth_client_secret (self w))
         ∧ (oauth_client_id (self w) = None →
            data !! CONF_CLIENT_ID = Some None)
         ∧ (oauth_client_secret (self w) = None →
            data !! CONF_CLIENT_SECRET = Some None)
         ∧ data !! CONF_INSTALLED_APP_ID
             = Some (payload !! CONF_INSTALLED_APP_ID)
         ∧ data !! CONF_REFRESH_TOKEN = Some (payload !! CONF_REFRESH_TOKEN)
         ∧ data !! CONF_ACCESS_TOKEN = Some (Some token)
         ∧ data !! CONF_LOCATION_ID = Some (Some selected)
         ∧ data !! CONF_APP_ID = Some (Some (app_app_id app))).
Proof.
  split.
  { intros payload w app loc Hpayload Happ Hloc.
    destruct (authorize_creates_entry fmt payload w app loc Hpayload Happ Hloc)
      as (w' & data & Hrun & Htok & Href & Hcid & Hsec & Hl & Ha & Hinst).
    exists w', data. by split_and!. }
  intros d_pat token app locations d_loc selected payload w
    Hd Hok Hfind Hrefresh Hupdate Hlocs Hne Hsel Hpayload.
  destruct (pat_found remote fmt d_pat token app locations w)
    as (w1 & Hpat & Hself1 & _); try done.
  pose proof (select_location_selected remote fmt d_loc selected w1 Hsel)
    as Hrun.
  set (w1' := {| self := set_location_id (Some selected) (self w1) |}) in Hrun.
  assert (async_step_authorize fmt None w1'
          = (Ret (ExternalStep "authorize" (fmt (app_app_id app) selected)),
             {| self := self w1'; calls := calls w1'; smartapps := smartapps w1';
                logs := logs w1' ++
                  [mkLog DEBUG "Prompting user for app authorization." []] |}))
    as Hprompt.
  { flow_unfold. subst w1'. flow_cbn. rewrite Hself1. reflexivity. }
  rewrite Hprompt in Hrun.
  match type of Hrun with _ = (_, ?w) => set (w2 := w) in * end.
  destruct (authorize_creates_entry fmt payload w2 (app_app_id app) selected)
    as (w3 & data & Hauth & Htok & Href & Hcid & Hsec & Hloc & Happ & Hinst).
  { done. }
  { subst w2 w1'. flow_cbn. by rewrite Hself1. }
  { by subst w2 w1'. }
  exists w1, w2, w3, data.
  assert (self w2 = set_location_id (Some selected) (self w1)) as Hself2 by done.
  rewrite Hself2, Hself1 in Htok, Hcid, Hsec.
  cbn -[insert lookup empty] in Htok, Hcid, Hsec.
  split_and!; try done.
  - intros Hnone. by rewrite Hcid, Hnone.
  - intros Hnone. by rewrite Hsec, Hnone.
Qed.
End FlowFacts.

(** * Properties of the webhook handler *)

Section WebhookFacts.
Import Webhook.

Ltac hook_unfold :=
  unfold smartapp_webhook, json_response, try_except, lift,
    mbind, M_bind, bind, log, modify, raise, ret, get.

(** What the handler does once the body is decoded: the manager's answer
    goes out as JSON with status 200, and an exception of the manager or of
    the serializer that derives from [Exception] becomes a bare 500. *)
Lemma smartapp_webhook_decoded loads dumps webhook_id request manager data w :
  data_manager w = Some manager →
  loads (body request) = Ret data →
  (smartapp_webhook loads dumps webhook_id request w).1
    = match handle_request manager data (headers request) with
      | Ret result =>
          match dumps result with
          | Ret rendered =>
              Ret {| status := 200; text := Some rendered;
                     content_type := Some "application/json" |}
          | Raise e =>
              if is_Exception e
              then Ret {| status := 500; text := None; content_type := None |}
              else Raise e
          end
      | Raise e =>
          if is_Exception e
          then Ret {| status := 500; text := None; content_type := None |}
          else Raise e
      end.
Proof.
  intros Hm Hdata. hook_unfold. simpl. rewrite Hm, Hdata. simpl.
  destruct (handle_request manager data (headers request)) as [result|e]; simpl.
  - destruct (dumps result) as [rendered|e]; simpl; [done|].
    by destruct (is_Exception e).
  - by destruct (is_Exception e).
Qed.

(** C1, where the code departs from it. A body that does not decode is
    met before the [try] block is entered: the decoding error leaves the
    handler as an exception, there is no response, and nothing is logged. *)
Theorem smartapp_webhook_decode_error loads dumps webhook_id request manager e w :
  data_manager w = Some manager →
  loads (body request) = Raise e →
  smartapp_webhook loads dumps webhook_id request w = (Raise e, w).
Proof.
  intros Hm Hdata. hook_unfold. simpl. by rewrite Hm, Hdata.
Qed.
End WebhookFacts.

(** * Further properties of the reconciler *)

Section ReconcilerMore.
Import Reconciler.
Implicit Types (caps : gset string) (subs st : list SubscriptionEntity).

(** The wanted set depends on the devices only through the capabilities
    they have between them: device order and repetition do not matter. *)
Theorem desired_capabilities_union CAPS devices1 devices2 :
  (∀ c, (∃ d, d ∈ devices1 ∧ c ∈ capabilities d)
        ↔ (∃ d, d ∈ devices2 ∧ c ∈ capabilities d)) →
  desired_capabilities CAPS devices1 = desired_capabilities CAPS devices2.
Proof.
  intros Hsame. apply set_eq. intros c.
  rewrite !elem_of_desired_capabilities. by rewrite Hsame.
Qed.

(** An ignored capability is never subscribed: whatever the devices and
    the allowlist, no create is queued for it, and a subscription the cloud
    holds for it is queued for removal. *)
Theorem ignored_capability_never_subscribed CAPS devices st c :
  c ∈ IGNORED_CAPABILITIES →
  (CreateTask c ∉ sync_tasks CAPS devices st)
  ∧ ∀ s, s ∈ st → capability s = c → DeleteTask s ∈ sync_tasks CAPS devices st.
Proof.
  intros Hign.
  assert (c ∉ desired_capabilities CAPS devices) as Hout.
  { rewrite elem_of_desired_capabilities. tauto. }
  split.
  - rewrite elem_of_sync_tasks_create. tauto.
  - intros s Hs Hc. rewrite elem_of_sync_tasks_delete.
    apply elem_of_obsolete_unwanted; [done|]. by rewrite Hc.
Qed.

(** A capability outside the allowlist is treated the same way. *)
Lemma unknown_capability_never_subscribed CAPS devices st c :
  c ∉ CAPS → CreateTask c ∉ sync_tasks CAPS devices st.
Proof.
  intros Hout. rewrite elem_of_sync_tasks_create, elem_of_desired_capabilities.
  tauto.
Qed.

(** ** Passes with failing calls *)









(** ** What a pass writes *)

(** Every subscription a pass without failures adds to the cloud is a
    capability subscription of this installed app and location, for a
    wanted capability. *)
Theorem sync_creates_capability_subscriptions CAPS schedule tok loc app devices
    (w : Cloud) :
  (∀ l, schedule l ≡ₚ l) →
  NoDup (subscription_id <$> remote w) →
  let w' := (smartapp_sync_subscriptions CAPS no_faults schedule tok loc app
               devices w).2 in
  ∀ s, s ∈ remote w' → s ∉ remote w →
       installed_app_id s = app ∧ location_id s = loc
       ∧ source_type s = CAPABILITY
       ∧ capability s ∈ desired_capabilities CAPS devices.
Proof.
  intros Hperm Hids w' s Hs Hnew. subst w'. rewrite sync_pass_eq in Hs.
  cbn [subscriptions_fault no_faults] in Hs. cbv zeta in Hs. cbn [snd remote] in Hs.
  set (order := pass_order schedule (sync_tasks CAPS devices (remote w))) in *.
  assert (order ≡ₚ sync_tasks CAPS devices (remote w)) as Horder
    by by apply pass_order_perm.
  destruct (pass_remote CAPS loc app devices (remote w) order Hids Horder)
    as (news & Heq & Hnews & Hfields & _).
  rewrite foldl_task_step_no_faults, Heq in Hs.
  apply elem_of_app in Hs as [Hs|Hs].
  { exfalso. apply Hnew. by eapply kept_subseteq. }
  rewrite Forall_forall in Hfields. destruct (Hfields s Hs) as (? & ? & ?).
  split_and!; try done.
  assert (capability s ∈ capability <$> news) as Hc by by apply list_elem_of_fmap_2.
  rewrite Hnews in Hc. apply elem_of_elements in Hc. set_solver.
Qed.

End ReconcilerMore.

(** * Further properties of the handshake *)

Section FlowMore.
Import Regex ConfigFlow.
Implicit Types (w : Flow) (d : gmap string string) (token : string).

Ltac flow_unfold :=
  unfold async_step_pat, async_step_select_location, async_step_authorize,
    _show_step_pat, setup_smartapp, try_except, await, attribute,
    mbind, M_bind, bind, log, record_call, assign, modify, raise, ret, get.

Ltac flow_cbn := cbn -[insert lookup empty locations_options].

(** Invoked without a credential in its input, the credential step shows
    its form without errors: it awaits nothing and stores nothing. *)
Theorem pat_without_token remote fmt user_input w :
  user_input ≫= (.!! CONF_ACCESS_TOKEN) = None →
  ∃ w',
    async_step_pat remote fmt user_input w
      = (Ret (ShowForm "pat" TokenSchema ∅), w')
    ∧ self w' = self w ∧ calls w' = calls w ∧ smartapps w' = smartapps w.
Proof.
  intros Hin. unfold async_step_pat. rewrite Hin. flow_unfold. flow_cbn.
  eexists. by split_and!.
Qed.

(** The options of the selection form: one per listed location id. *)
Lemma locations_options_dom locations (acc : gmap string string) :
  dom (foldl (λ d location, <[loc_location_id location := loc_name location]> d)
         acc locations)
    = dom acc ∪ list_to_set (loc_location_id <$> locations).
Proof.
  revert acc. induction locations as [|l locations IH]; intros acc.
  - simpl. set_solver.
  - cbn [foldl]. rewrite IH, dom_insert_L, fmap_cons, list_to_set_cons.
    set_solver.
Qed.

Lemma locations_options_empty locations :
  locations_options locations = ∅ ↔ locations = [].
Proof.
  split; [|by intros ->].
  intros Hempty. destruct locations as [|l locations]; [done|].
  assert (loc_location_id l ∈ dom (locations_options (l :: locations))) as Hin.
  { unfold locations_options. rewrite locations_options_dom. set_solver. }
  rewrite Hempty in Hin. set_solver.
Qed.

(** Listing at least one location never ends the flow: the step shows the
    selection form, and the form offers exactly the listed location ids. *)
Theorem select_location_offers_listed remote fmt user_input token w
    location locations :
  user_input ≫= (.!! CONF_LOCATION_ID) = None →
  api (self w) = Some token →
  locations_answer remote token = Ret (location :: locations) →
  ∃ w' options,
    async_step_select_location remote fmt user_input w
      = (Ret (ShowForm "select_location" (LocationSchema options) ∅), w')
    ∧ dom options = list_to_set (loc_location_id <$> location :: locations)
    ∧ self w' = self w.
Proof.
  intros Hin Hapi Hloc. unfold async_step_select_location. rewrite Hin.
  flow_unfold. flow_cbn. rewrite Hapi. flow_cbn. rewrite Hloc. flow_cbn.
  rewrite decide_False by (by rewrite locations_options_empty).
  eexists _, _. split; [reflexivity|]. split; [|done].
  unfold locations_options. rewrite locations_options_dom. set_solver.
Qed.

(** An exception of the location listing is not handled by the step that
    meets it: it leaves the selection step as it came. *)
Theorem select_location_listing_error remote fmt user_input token w e :
  user_input ≫= (.!! CONF_LOCATION_ID) = None →
  api (self w) = Some token →
  locations_answer remote token = Raise e →
  ∃ w',
    async_step_select_location remote fmt user_input w = (Raise e, w')
    ∧ self w' = self w.
Proof.
  intros Hin Hapi Hloc. unfold async_step_select_location. rewrite Hin.
  flow_unfold. flow_cbn. rewrite Hapi. flow_cbn. rewrite Hloc. flow_cbn.
  eexists. by split.
Qed.

(** The handler of the credential step covers the validation only. When
    the credential is validated and the listing that follows raises, the
    exception leaves the credential step, response errors included, and the
    app has by then been registered locally and its id stored. *)
Theorem pat_listing_error_escapes remote fmt d token app w e :
  d !! CONF_ACCESS_TOKEN = Some token →
  VAL_UID_MATCHER_match token = true →
  find_app_answer remote token = Ret (Some app) →
  refresh_answer remote app = Ret tt →
  update_app_answer remote app = Ret tt →
  locations_answer remote token = Raise e →
  ∃ w',
    async_step_pat remote fmt (Some d) w = (Raise e, w')
    ∧ smartapps w' = smartapps w ++ [app]
    ∧ app_id (self w') = Some (app_app_id app).
Proof.
  intros Hd Hok Hfind Hrefresh Hupdate Hlocs.
  unfold async_step_pat. cbn [mbind option_bind].
  rewrite Hd, Hok. cbn [negb]. flow_unfold. flow_cbn.
  rewrite Hfind. flow_cbn. rewrite Hrefresh. flow_cbn.
  rewrite Hupdate. flow_cbn. rewrite Hlocs. flow_cbn.
  eexists. by split_and!.
Qed.


(** Without a payload, or with an empty one, the authorization step only
    prompts: the URL is built from the stored app and location, and the
    step fails with [AttributeError] when one of them was never stored. In
    no case does it await a call or change the handler. *)
Theorem authorize_prompts fmt user_input w :
  truthy user_input = false →
  let run := async_step_authorize fmt user_input w in
  self run.2 = self w ∧ calls run.2 = calls w
  ∧ run.1 = match app_id (self w), location_id (self w) with
            | Some app, Some location =>
                Ret (ExternalStep "authorize" (fmt app location))
            | Some _, None => Raise (AttributeError "location_id")
            | None, _ => Raise (AttributeError "app_id")
            end.
Proof.
  intros Hempty. flow_unfold. rewrite Hempty. flow_cbn.
  destruct (app_id (self w)); flow_cbn; [|done].
  by destruct (location_id (self w)).
Qed.

(** The terminal step needs the app and the location to have been stored:
    called before that with a payload, it fails with [AttributeError] and
    makes no entry. *)
Theorem authorize_needs_app_and_location fmt payload w :
  payload ≠ ∅ →
  app_id (self w) = None ∨ location_id (self w) = None →
  ∃ name w', async_step_authorize fmt (Some payload) w
               = (Raise (AttributeError name), w').
Proof.
  intros Hpayload Hmissing. flow_unfold.
  unfold truthy. rewrite bool_decide_eq_true_2 by done. flow_cbn.
  destruct (location_id (self w)) as [location|]; flow_cbn; [|by eauto].
  destruct (app_id (self w)) as [app|]; flow_cbn; [|by eauto].
  by destruct Hmissing.
Qed.
End FlowMore.

(** * Further properties of the webhook handler *)

Section WebhookMore.
Import Webhook.

(** Without a manager under [hass.data] the handler fails with [KeyError]
    before it reads the body: whatever the body, nothing is decoded,
    logged or answered. *)
Theorem smartapp_webhook_without_manager loads dumps webhook_id request w :
  data_manager w = None →
  smartapp_webhook loads dumps webhook_id request w
    = (Raise (KeyError "manager"), w).
Proof.
  intros Hnone.
  unfold smartapp_webhook, mbind, M_bind, bind, get, raise.
  by rewrite Hnone.
Qed.

(** The handler leaves the registered manager alone and writes at most two
    log records, whatever the request and whatever the manager answers. *)
Theorem smartapp_webhook_footprint loads dumps webhook_id request w :
  let w' := (smartapp_webhook loads dumps webhook_id request w).2 in
  data_manager w' = data_manager w
  ∧ ∃ written, logs w' = logs w ++ written ∧ (length written ≤ 2)%nat.
Proof.
  unfold smartapp_webhook, json_response, try_except, lift,
    mbind, M_bind, bind, log, modify, raise, ret, get.
  cbn. destruct (data_manager w) as [manager|] eqn:Hm; cbn.
  2:{ split; [done|]. exists []. split; [by rewrite app_nil_r|simpl; lia]. }
  destruct (loads (body request)) as [data|e]; cbn.
  2:{ split; [done|]. exists []. split; [by rewrite app_nil_r|simpl; lia]. }
  destruct (handle_request manager data (headers request)) as [result|e]; cbn.
  - destruct (dumps result) as [rendered|e]; cbn.
    + split; [done|]. eexists. split; [reflexivity|]. simpl. lia.
    + destruct (is_Exception e); cbn; (split; [done|]).
      * eexists. split; [by rewrite <- app_assoc|]. simpl. lia.
      * eexists. split; [reflexivity|]. simpl. lia.
  - destruct (is_Exception e); cbn; (split; [done|]).
    + eexists. split; [by rewrite <- app_assoc|]. simpl. lia.
    + eexists. split; [reflexivity|]. simpl. lia.
Qed.
End WebhookMore.

(** * The credential pattern, spelled out *)

Section UidFacts.
Import Regex Uid.

Lemma step_seq r1 r2 at_ : step (Seq r1 r2) at_ = step r1 at_ ≫= step r2.
Proof. reflexivity. Qed.

Lemma step_hex p s :
  step hex (p, s)
    = match take_hex 1 s with
      | Some rest => [(S p, rest)]
      | None => []
      end.
Proof.
  destruct s as [|c rest]; [done|].
  change (step hex (p, String c rest))
    with (if is_hex c then [(S p, rest)] else []).
  change (take_hex 1 (String c rest)) with (if is_hex c then Some rest else None).
  by destruct (is_hex c).
Qed.

Lemma take_hex_succ n s : take_hex (S n) s = take_hex n s ≫= take_hex 1.
Proof.
  revert s. induction n as [|n IH]; intros s.
  - cbn [take_hex mbind option_bind]. by destruct s.
  - destruct s as [|c rest]; [done|].
    change (take_hex (S (S n)) (String c rest))
      with (if is_hex c then take_hex (S n) rest else None).
    change (take_hex (S n) (String c rest))
      with (if is_hex c then take_hex n rest else None).
    destruct (is_hex c); [apply IH|done].
Qed.

Lemma step_repeat_hex n p s :
  step (Repeat hex n) (p, s)
    = match take_hex n s with
      | Some rest => [(n + p, rest)]
      | None => []
      end.
Proof.
  induction n as [|n IH]; [done|].
  change (step (Repeat hex (S n)) (p, s))
    with (step (Repeat hex n) (p, s) ≫= step hex).
  rewrite IH, take_hex_succ.
  destruct (take_hex n s) as [rest|]; [|done].
  cbn [mbind option_bind list_bind]. change (mbind ?f ?l) with (list_bind _ _ f l).
  cbn [list_bind]. rewrite step_hex, app_nil_r.
  by destruct (take_hex 1 rest).
Qed.

Lemma step_hyphen p s :
  step (Lit "-") (p, s)
    = match take_hyphen s with
      | Some rest => [(S p, rest)]
      | None => []
      end.
Proof.
  destruct s as [|c rest]; [done|].
  change (step (Lit "-") (p, String c rest))
    with (if Ascii.eqb "-" c then [(S p, rest)] else []).
  unfold take_hyphen. by destruct (Ascii.eqb "-" c).
Qed.

Lemma step_eol p s : step Eol (p, s) = if at_end s then [(p, s)] else [].
Proof.
  by destruct s as [|c [|c' rest]].
Qed.

Lemma landing_bind p left (f : cursor → list cursor) :
  landing p left ≫= f
    = match left with
      | Some rest => f (p, rest)
      | None => []
      end.
Proof.
  destruct left as [rest|]; [|done].
  change (landing p (Some rest) ≫= f) with (f (p, rest) ++ []).
  by rewrite app_nil_r.
Qed.

Lemma step_repeat_hex_landing n p s :
  step (Repeat hex n) (p, s) = landing (n + p) (take_hex n s).
Proof. apply step_repeat_hex. Qed.

Lemma step_hyphen_landing p s :
  step (Lit "-") (p, s) = landing (S p) (take_hyphen s).
Proof. apply step_hyphen. Qed.

(** The hyphenated alternative ends in one way at most, 36 characters on. *)
Lemma step_hyphenated p s :
  ∃ q, step hyphenated (p, s) = landing q (take_hyphenated s).
Proof.
  unfold hyphenated, seq, take_hyphenated. cbn [foldr].
  repeat (rewrite step_seq;
          first [rewrite step_repeat_hex_landing|rewrite step_hyphen_landing];
          rewrite landing_bind;
          match goal with
          | |- context [take_hex ?n s] =>
              destruct (take_hex n s) as [?s|]; [|by exists 0]
          | |- context [match take_hex ?n ?x with _ => _ end] =>
              destruct (take_hex n x) as [?s|]; [|by exists 0]
          | |- context [match take_hyphen ?x with _ => _ end] =>
              destruct (take_hyphen x) as [?s|]; [|by exists 0]
          end; cbn [mbind option_bind]).
  rewrite step_repeat_hex_landing. eauto.
Qed.

Lemma re_match_landing r text q left :
  step r (0, text) = landing q left →
  re_match (Seq Bol (Seq r Eol)) text
    = match left with
      | Some rest => at_end rest
      | None => false
      end.
Proof.
  intros Hstep. unfold re_match. rewrite step_seq.
  change (step Bol (0, text)) with (landing 0 (Some text)).
  rewrite landing_bind, step_seq, Hstep, landing_bind.
  destruct left as [rest|]; [|done]. rewrite step_eol. by destruct (at_end rest).
Qed.

Lemma re_match_hex32 text :
  re_match VAL_HEX32 text
    = match take_hex 32 text with
      | Some rest => at_end rest
      | None => false
      end.
Proof. eapply re_match_landing, step_repeat_hex_landing. Qed.

Lemma re_match_hyphenated text :
  re_match VAL_HYPHENATED text
    = match take_hyphenated text with
      | Some rest => at_end rest
      | None => false
      end.
Proof.
  destruct (step_hyphenated 0 text) as [q Hq]. by eapply re_match_landing.
Qed.

Lemma take_hex_spec n s rest :
  take_hex n s = Some rest ↔ ∃ run, s = run +:+ rest ∧ hex_run n run.
Proof.
  revert s. induction n as [|n IH]; intros s.
  - split.
    + intros [= ->]. exists "". by repeat split.
    + intros (run & -> & Hlen & _). destruct run; [done|discriminate].
  - destruct s as [|c s']; cbn [take_hex].
    + split; [done|]. intros ([|c run] & Heq & Hlen & _); discriminate.
    + destruct (is_hex c) eqn:Hc.
      * rewrite IH. split.
        -- intros (run & -> & Hlen & Hall). exists (String c run).
           split; [done|]. split; [by cbn; f_equal|]. by constructor.
        -- intros ([|c' run] & Heq & Hlen & Hall); [discriminate|].
           injection Heq as -> ->. exists run. split; [done|].
           split; [by injection Hlen|]. by inversion Hall.
      * split; [done|].
        intros ([|c' run] & Heq & Hlen & Hall); [discriminate|].
        injection Heq as -> ->. inversion Hall; congruence.
Qed.

Lemma take_hyphen_spec s rest : take_hyphen s = Some rest ↔ s = "-" +:+ rest.
Proof.
  destruct s as [|c s']; [done|]. unfold take_hyphen.
  change ("-" +:+ rest) with (String "-" rest).
  destruct (Ascii.eqb_spec "-" c) as [<-|Hne].
  - split; by intros [= ->].
  - split; [done|]. intros [= ? ?]. congruence.
Qed.

Lemma at_end_spec s : at_end s = true ↔ s = "" ∨ s = newline.
Proof.
  unfold newline. destruct s as [|c [|c' s']]; unfold at_end.
  - tauto.
  - destruct (Ascii.eqb_spec c "010") as [->|Hne].
    + tauto.
    + split; [done|]. intros [|[=]]; congruence.
  - split; [done|]. intros [|]; discriminate.
Qed.

Lemma take_hyphenated_spec s rest :
  take_hyphenated s = Some rest
  ↔ ∃ a b c d e,
      s = a +:+ "-" +:+ b +:+ "-" +:+ c +:+ "-" +:+ d +:+ "-" +:+ e +:+ rest
      ∧ hex_run 8 a ∧ hex_run 4 b ∧ hex_run 4 c ∧ hex_run 4 d ∧ hex_run 12 e.
Proof.
  unfold take_hyphenated. split.
  - intros (s1 & (a & -> & Ha)%take_hex_spec & H)%bind_Some.
    apply bind_Some in H as (s2 & ->%take_hyphen_spec & H).
    apply bind_Some in H as (s3 & (b & -> & Hb)%take_hex_spec & H).
    apply bind_Some in H as (s4 & ->%take_hyphen_spec & H).
    apply bind_Some in H as (s5 & (c & -> & Hc)%take_hex_spec & H).
    apply bind_Some in H as (s6 & ->%take_hyphen_spec & H).
    apply bind_Some in H as (s7 & (d & -> & Hd)%take_hex_spec & H).
    apply bind_Some in H as (s8 & ->%take_hyphen_spec & H).
    apply take_hex_spec in H as (e & -> & He).
    by exists a, b, c, d, e.
  - intros (a & b & c & d & e & -> & Ha & Hb & Hc & Hd & He).
    repeat (apply bind_Some; eexists; split;
            [first [apply take_hex_spec; eexists; split; [reflexivity|eassumption]
                   |by apply take_hyphen_spec]|]).
    apply take_hex_spec. by exists e.
Qed.

(** What [VAL_UID_MATCHER.match] lets through: 32 hexadecimal digits, or
    hexadecimal digits in groups of 8, 4, 4, 4 and 12 joined by hyphens, and
    after either nothing more or one line feed; nothing else. *)
Theorem VAL_UID_accepts text :
  VAL_UID_MATCHER_match text = true
  ↔ ∃ tail,
      (tail = "" ∨ tail = newline)
      ∧ ((∃ run, text = run +:+ tail ∧ hex_run 32 run)
         ∨ ∃ a b c d e,
             text = a +:+ "-" +:+ b +:+ "-" +:+ c +:+ "-" +:+ d +:+ "-"
                    +:+ e +:+ tail
             ∧ hex_run 8 a ∧ hex_run 4 b ∧ hex_run 4 c ∧ hex_run 4 d
             ∧ hex_run 12 e).
Proof.
  unfold VAL_UID_MATCHER_match.
  change (re_match VAL_UID text)
    with (re_match (Seq Bol (Seq (Alt hex32 hyphenated) Eol)) text).
  assert (∀ a b, re_match (Seq Bol (Seq (Alt a b) Eol)) text
                 = re_match (Seq Bol (Seq a Eol)) text
                   || re_match (Seq Bol (Seq b Eol)) text) as ->.
  { intros a b. unfold re_match. rewrite !step_seq.
    change (step Bol (0, text)) with (landing 0 (Some text)).
    rewrite !landing_bind, !step_seq.
    change (step (Alt a b) (0, text)) with (step a (0, text) ++ step b (0, text)).
    rewrite bind_app.
    by destruct (step a (0, text) ≫= step Eol), (step b (0, text) ≫= step Eol). }
  fold VAL_HEX32 VAL_HYPHENATED.
  rewrite orb_true_iff, re_match_hex32, re_match_hyphenated. split.
  - intros [H|H].
    + destruct (take_hex 32 text) as [tail|] eqn:Htake; [|done].
      exists tail. split; [by apply at_end_spec|]. left. by apply take_hex_spec.
    + destruct (take_hyphenated text) as [tail|] eqn:Htake; [|done].
      exists tail. split; [by apply at_end_spec|]. right.
      by apply take_hyphenated_spec.
  - intros (tail & Htail%at_end_spec & [Hrun%take_hex_spec|Hhyp%take_hyphenated_spec]).
    + left. by rewrite Hrun.
    + right. by rewrite Hhyp.
Qed.
End UidFacts.

(** * Properties of the first step *)

Section UserFacts.
Import ConfigFlow UserStep.
Implicit Types (w : Entry) (input : option (gmap string string)).

Ltac user_unfold :=
  unfold async_step_user, setup_smartapp_endpoint, in_flow,
    async_step_pat, _show_step_pat,
    mbind, M_bind, bind, log, assign, modify, raise, ret, get.

Ltac user_cbn := cbn -[insert lookup empty].

(** One invocation: the endpoint is set up only when the flag is not yet
    raised, the flag is raised afterwards whatever happened, and nothing
    else of the handler changes. *)
Lemma user_step_setups hub remote fmt input w :
  let w' := (async_step_user hub remote fmt input w).2 in
  endpoint_setups w'
    = endpoint_setups w ++
        (if endpoints_initialized (self (flow w)) then []
         else [bool_decide (current_entries hub = 0)])
  ∧ self (flow w') = set_endpoints_initialized true (self (flow w))
  ∧ calls (flow w') = calls (flow w).
Proof.
  destruct w as [[h cs apps ls] setups]. destruct h as [? ? ? ? ? ? ? ? flag].
  user_unfold. user_cbn.
  destruct flag; user_cbn.
  - rewrite app_nil_r.
    destruct (webhook_valid hub); user_cbn; [|done].
    by destruct input.
  - destruct (endpoint_answer hub _) as [[]|e]; user_cbn; [|done].
    destruct (webhook_valid hub); user_cbn; [|done].
    by destruct input.
Qed.

Lemma user_steps_setups hub remote fmt inputs w :
  ∃ extra,
    endpoint_setups (user_steps hub remote fmt inputs w)
      = endpoint_setups w ++ extra
    ∧ (length extra ≤ 1)%nat
    ∧ (endpoints_initialized (self (flow w)) = true → extra = []).
Proof.
  revert w. induction inputs as [|input inputs IH]; intros w.
  - exists []. cbn. rewrite app_nil_r. split_and!; [done|lia|done].
  - cbn [user_steps foldl].
    destruct (user_step_setups hub remote fmt input w) as (Hsetups & Hself & _).
    set (w1 := (async_step_user hub remote fmt input w).2) in *.
    destruct (IH w1) as (extra & Heq & _ & Hnone).
    assert (extra = []) as -> by (apply Hnone; by rewrite Hself).
    unfold user_steps in Heq. rewrite Heq, app_nil_r, Hsetups.
    eexists. split; [reflexivity|].
    destruct (endpoints_initialized (self (flow w))); cbn; split; (lia || done).
Qed.

(** However often the step is invoked on a flow, and whatever the inputs,
    [setup_smartapp_endpoint] is called at most once, and not at all when
    the flag was raised before. *)
Theorem user_steps_setup_once hub remote fmt inputs w :
  ∃ extra,
    endpoint_setups (user_steps hub remote fmt inputs w)
      = endpoint_setups w ++ extra
    ∧ (length extra ≤ 1)%nat
    ∧ (endpoints_initialized (self (flow w)) = true → extra = []).
Proof. apply user_steps_setups. Qed.

(** A setup that fails is not tried again: the flag is raised before the
    call is awaited, so the exception leaves the step with the flag up. *)
Theorem user_step_setup_failure hub remote fmt input w e :
  endpoints_initialized (self (flow w)) = false →
  endpoint_answer hub (bool_decide (current_entries hub = 0)) = Raise e →
  ∃ w',
    async_step_user hub remote fmt input w = (Raise e, w')
    ∧ endpoints_initialized (self (flow w')) = true
    ∧ ∀ inputs,
        endpoint_setups (user_steps hub remote fmt inputs w')
          = endpoint_setups w'.
Proof.
  intros Hflag Hanswer.
  assert (∃ w', async_step_user hub remote fmt input w = (Raise e, w')
                ∧ endpoints_initialized (self (flow w')) = true)
    as (w' & Hrun & Hup).
  { destruct w as [[h cs apps ls] setups]. cbn in Hflag.
    user_unfold. user_cbn. rewrite Hflag. user_cbn. rewrite Hanswer.
    eexists. by split. }
  exists w'. split_and!; [done|done|]. intros inputs.
  destruct (user_steps_setups hub remote fmt inputs w')
    as (extra & Heq & _ & Hnone).
  rewrite Heq, (Hnone Hup). apply app_nil_r.
Qed.

(** With a webhook that does not meet the requirements the step ends the
    flow, whatever its input: the credential step is not entered. *)
Theorem user_step_invalid_webhook hub remote fmt input w :
  endpoint_ready hub w →
  webhook_valid hub = false →
  ∃ w',
    async_step_user hub remote fmt input w
      = (Ret (Result (Abort "invalid_webhook_url")), w')
    ∧ calls (flow w') = calls (flow w)
    ∧ access_token (self (flow w')) = access_token (self (flow w)).
Proof.
  intros Hready Hvalid.
  destruct w as [[h cs apps ls] setups]. destruct h as [? ? ? ? ? ? ? ? flag].
  unfold endpoint_ready in Hready. cbn in Hready.
  user_unfold. user_cbn. destruct flag; user_cbn.
  - rewrite Hvalid. user_cbn. eexists. by split_and!.
  - destruct Hready as [|Hanswer]; [done|]. rewrite Hanswer. user_cbn.
    rewrite Hvalid. user_cbn. eexists. by split_and!.
Qed.

(** With a valid webhook the step shows the confirmation form, carrying
    the webhook URL, as long as it has no input; any input at all, an empty
    one included, moves on to the credential form. What the input holds is
    never read: a credential sent along is neither checked nor stored. *)
Theorem user_step_confirms hub remote fmt input w :
  endpoint_ready hub w →
  webhook_valid hub = true →
  ∃ w',
    async_step_user hub remote fmt input w
      = (Ret (match input with
              | None => ShowUserForm (<["webhook_url" := webhook_url hub]> ∅)
              | Some _ => Result (ShowForm "pat" TokenSchema ∅)
              end), w')
    ∧ calls (flow w') = calls (flow w)
    ∧ access_token (self (flow w')) = access_token (self (flow w)).
Proof.
  intros Hready Hvalid.
  destruct w as [[h cs apps ls] setups]. destruct h as [? ? ? ? ? ? ? ? flag].
  unfold endpoint_ready in Hready. cbn in Hready.
  user_unfold. user_cbn. destruct flag; user_cbn.
  - rewrite Hvalid. user_cbn. destruct input; eexists; by split_and!.
  - destruct Hready as [|Hanswer]; [done|]. rewrite Hanswer. user_cbn.
    rewrite Hvalid. user_cbn. destruct input; eexists; by split_and!.
Qed.
End UserFacts.

(** * The statements at the sample data *)

Section ReconcilerSamples.
Import Reconciler Samples.

Lemma sync_converges_witness :
  NoDup (subscription_id <$> remote cloud)
  ∧ NoDup (capability <$> remote cloud)
  ∧ ∃ w',
      smartapp_sync_subscriptions known no_faults reverse "pat" "loc-1" "app-1"
        devices cloud = (Ret tt, w')
      ∧ NoDup (capability <$> remote w')
      ∧ ∀ c, c ∈ capability <$> remote w' ↔ c ∈ desired_capabilities known devices.
Proof.
  assert (NoDup (subscription_id <$> remote cloud)) as Hids by compute_done.
  assert (NoDup (capability <$> remote cloud)) as Hcaps by compute_done.
  split_and!; [done|done|].
  destruct (sync_converges known reverse "pat" "loc-1" "app-1" devices cloud
              reverse_Permutation Hids Hcaps)
    as (_ & w' & order & Hrun & Hnd & Hset & _).
  exists w'. by split_and!.
Defined.

Lemma sync_removes_duplicates_witness :
  (DeleteTask on_switch ∉ sync_tasks known devices (remote cloud_twice))
  ∧ DeleteTask on_switch_again ∈ sync_tasks known devices (remote cloud_twice).
Proof.
  assert (NoDup (subscription_id <$> remote cloud_twice)) as Hids by compute_done.
  assert ("switch" ∈ desired_capabilities known devices) as HT by compute_done.
  destruct (sync_removes_duplicates known reverse "pat" "loc-1" "app-1" devices
              cloud_twice [] on_switch [on_lock; on_switch_again]
              reverse_Permutation Hids eq_refl HT)
    as (Hfirst & Hlater & _).
  { apply not_elem_of_nil. }
  split; [done|]. apply Hlater; [|done]. repeat constructor.
Defined.

Lemma sync_idempotent_witness :
  sync_tasks known devices (remote cloud_in_step) = []
  ∧ calls (smartapp_sync_subscriptions known no_faults reverse "pat" "loc-1"
             "app-1" devices cloud_in_step).2 = [CallSubscriptions "app-1"].
Proof.
  assert (NoDup (capability <$> remote cloud_in_step)) as Hnd by compute_done.
  assert (∀ c, c ∈ capability <$> remote cloud_in_step
               ↔ c ∈ desired_capabilities known devices) as Hstep.
  { intros c.
    replace (desired_capabilities known devices)
      with (list_to_set (capability <$> remote cloud_in_step) : gset string)
      by compute_done.
    by rewrite elem_of_list_to_set. }
  destruct (sync_idempotent known no_faults no_faults reverse reverse "pat"
              "loc-1" "app-1" devices cloud_in_step Hnd Hstep)
    as (Htasks & _ & Hcalls & _).
  by split.
Defined.

Lemma sync_absorbs_task_errors_witness :
  ∃ order written,
    (smartapp_sync_subscriptions known level_refused reverse "pat" "loc-1"
       "app-1" devices cloud).1 = Ret tt
    ∧ order ≡ₚ sync_tasks known devices (remote cloud)
    ∧ logs (smartapp_sync_subscriptions known level_refused reverse "pat"
              "loc-1" "app-1" devices cloud).2 = logs cloud ++ written
    ∧ filter (λ r, log_level r = ERROR) written
        = task_log level_refused "loc-1" "app-1"
            <$> filter (λ t, is_Some (task_fault level_refused "loc-1" "app-1" t))
                  order.
Proof.
  destruct (sync_absorbs_task_errors known level_refused reverse "pat" "loc-1"
              "app-1" devices cloud reverse_Permutation)
    as (order & written & Hrun & Horder & _ & _ & _ & Hlogs & Herrors).
  exists order, written.
  exact (conj Hrun (conj Horder (conj Hlogs Herrors))).
Defined.

(** C4 as stated fails: when the listing call raises, so does the pass. *)
Lemma sync_listing_error_escapes :
  (smartapp_sync_subscriptions known listing_down reverse "pat" "loc-1" "app-1"
     devices cloud).1 = Raise (RemoteExn APIResponseError).
Proof. by rewrite sync_pass_eq. Qed.
End ReconcilerSamples.

Section FlowSamples.
Import Regex ConfigFlow Samples.

Lemma pat_rejects_malformed_witness :
  ∃ w',
    async_step_pat cloud_with_app install_url
      (Some {[CONF_ACCESS_TOKEN := "not-a-uuid"]}) fresh_flow
      = (Ret (ShowForm "pat" TokenSchema
                (<[CONF_ACCESS_TOKEN := "token_invalid_format"]> ∅)), w')
    ∧ calls w' = [].
Proof.
  destruct (pat_rejects_malformed cloud_with_app install_url
              {[CONF_ACCESS_TOKEN := "not-a-uuid"]} "not-a-uuid" fresh_flow)
    as (w' & Hrun & Hcalls & _); [done|by vm_compute|by vm_compute|].
  exists w'. by split.
Defined.

Lemma pat_response_error_stays_witness :
  ∃ w',
    async_step_pat cloud_refusing install_url
      (Some {[CONF_ACCESS_TOKEN := token]}) fresh_flow
      = (Ret (ShowForm "pat" TokenSchema (<["base" := "app_setup_error"]> ∅)), w')
    ∧ smartapps w' = [].
Proof.
  destruct (pat_response_error_stays cloud_refusing install_url
              {[CONF_ACCESS_TOKEN := token]} token fresh_flow ClientResponseError)
    as (w' & Hrun & _ & Happs & _);
    [done|by vm_compute|done|by right|].
  exists w'. by split.
Defined.

(** C5 as stated fails: a connection failure while the app is looked up
    is no response error, and leaves the step as an exception. *)
Lemma pat_connection_error_escapes :
  (async_step_pat cloud_unreachable install_url
     (Some {[CONF_ACCESS_TOKEN := token]}) fresh_flow).1
    = Raise (RemoteExn ClientConnectionError).
Proof. by vm_compute. Qed.

(** C6 as stated fails: with a location stored by an earlier selection
    and no location in the input, the step lists the locations again and
    shows the selection form. *)
Lemma select_location_relists_despite_selection :
  location_id (self located_flow) = Some "loc-1"
  ∧ ∃ w',
      async_step_select_location cloud_with_app install_url None located_flow
        = (Ret (ShowForm "select_location"
                  (LocationSchema (<["loc-1" := "Home"]> ∅)) ∅), w')
      ∧ calls w' = [CallLocations token].
Proof. split; [done|]. eexists. split; by vm_compute. Qed.

Lemma select_location_no_locations_witness :
  ∃ w',
    async_step_select_location cloud_without_locations install_url None
      validated_flow = (Ret (Abort "no_available_locations"), w')
    ∧ calls w' = [CallLocations token].
Proof.
  destruct (select_location_no_locations cloud_without_locations install_url
              None token validated_flow)
    as (w' & Hrun & _ & Hcalls & _); [done|done|done|].
  exists w'. by split.
Defined.

Lemma complete_without_validation_witness :
  (∃ w' data,
     async_step_authorize install_url
       (Some {[CONF_INSTALLED_APP_ID := "installed-1"]}) located_flow
       = (Ret (CreateEntry "SmartThings" data), w')
     ∧ data !! CONF_CLIENT_ID = Some None
     ∧ data !! CONF_INSTALLED_APP_ID = Some (Some "installed-1")
     ∧ data !! CONF_REFRESH_TOKEN = Some None)
  ∧ ∃ w1 w2 w3 data,
      async_step_pat cloud_with_app install_url
        (Some {[CONF_ACCESS_TOKEN := token]}) fresh_flow
        = (Ret (ShowForm "select_location"
                  (LocationSchema (locations_options [home])) ∅), w1)
      ∧ async_step_select_location cloud_with_app install_url
          (Some {[CONF_LOCATION_ID := "loc-1"]}) w1
        = (Ret (ExternalStep "authorize" (install_url "app-1" "loc-1")), w2)
      ∧ async_step_authorize install_url
          (Some {[CONF_INSTALLED_APP_ID := "installed-1"]}) w2
        = (Ret (CreateEntry "SmartThings" data), w3)
      ∧ data !! CONF_CLIENT_ID = Some None
      ∧ data !! CONF_CLIENT_SECRET = Some None
      ∧ data !! CONF_INSTALLED_APP_ID = Some (Some "installed-1")
      ∧ data !! CONF_REFRESH_TOKEN = Some None.
Proof.
  destruct (complete_without_validation cloud_with_app install_url)
    as [Hterminal Hflow].
  assert ({[CONF_INSTALLED_APP_ID := "installed-1"]} ≠ (∅ : gmap string string))
    as Hpayload by (by vm_compute).
  split.
  - destruct (Hterminal {[CONF_INSTALLED_APP_ID := "installed-1"]} located_flow
                "app-1" "loc-1" Hpayload eq_refl eq_refl)
      as (w' & data & Hrun & Hcid & _ & Hinst & Href & _).
    exists w', data. exact (conj Hrun (conj Hcid (conj Hinst Href))).
  - destruct (Hflow {[CONF_ACCESS_TOKEN := token]} token registered [home]
                {[CONF_LOCATION_ID := "loc-1"]} "loc-1"
                {[CONF_INSTALLED_APP_ID := "installed-1"]} fresh_flow)
      as (w1 & w2 & w3 & data & H1 & H2 & H3 & _ & _ & Hcid & Hsec & Hinst
          & Href & _);
      [done|by vm_compute|done|done|done|done|by vm_compute|done|done|].
    exists w1, w2, w3, data.
    exact (conj H1 (conj H2 (conj H3 (conj (Hcid eq_refl) (conj (Hsec eq_refl)
             (conj Hinst Href)))))).
Defined.

(** C10 as stated fails twice over. An empty payload omits both keys and
    gives no entry. And a credential step that finds the registration does
    not make the client fields [None]: when an earlier run of the step on
    the same handler created the registration and then failed on the
    listing, the entry carries the client id and secret of that run. *)
Lemma complete_entry_counterexample :
  (async_step_authorize install_url (Some ∅) located_flow).1
    = Ret (ExternalStep "authorize" (install_url "app-1" "loc-1"))
  ∧ let first :=
      async_step_pat cloud_before_app install_url
        (Some {[CONF_ACCESS_TOKEN := token]}) fresh_flow in
    let second :=
      async_step_pat cloud_with_app install_url
        (Some {[CONF_ACCESS_TOKEN := token]}) first.2 in
    let third :=
      async_step_select_location cloud_with_app install_url
        (Some {[CONF_LOCATION_ID := "loc-1"]}) second.2 in
    let last :=
      async_step_authorize install_url
        (Some {[CONF_INSTALLED_APP_ID := "installed-1";
                CONF_REFRESH_TOKEN := "refresh-1"]}) third.2 in
    first.1 = Raise (RemoteExn APIResponseError)
    ∧ calls second.2
        = [CallFindApp token; CallCreateApp token; CallLocations token;
           CallFindApp token; CallAppRefresh "app-1"; CallUpdateApp "app-1";
           CallLocations token]
    ∧ ∃ data,
        last.1 = Ret (CreateEntry "SmartThings" data)
        ∧ data !! CONF_CLIENT_ID = Some (Some "client-1")
        ∧ data !! CONF_CLIENT_SECRET = Some (Some "secret-1").
Proof.
  split; [by vm_compute|]. cbv zeta. split; [by vm_compute|].
  split; [by vm_compute|]. eexists. split; [by vm_compute|].
  split; by vm_compute.
Qed.
End FlowSamples.

Section WebhookSamples.
Import Webhook Samples.

Lemma smartapp_webhook_decode_error_witness :
  smartapp_webhook loads dumps "hook-1" garbage hass
    = (Raise JSONDecodeError, hass).
Proof.
  apply (smartapp_webhook_decode_error loads dumps "hook-1" garbage echo);
    reflexivity.
Defined.
End WebhookSamples.

(** * The further properties at the sample data *)

Section ReconcilerMoreSamples.
Import Reconciler Samples.

Lemma desired_capabilities_union_witness :
  desired_capabilities known devices = desired_capabilities known (reverse devices).
Proof.
  apply (desired_capabilities_union known devices (reverse devices)).
  intros c. by setoid_rewrite elem_of_reverse.
Defined.

Lemma ignored_capability_never_subscribed_witness :
  CreateTask "healthCheck" ∉ sync_tasks known devices (remote cloud).
Proof.
  apply (ignored_capability_never_subscribed known devices (remote cloud)
           "healthCheck").
  unfold IGNORED_CAPABILITIES. right. left.
Defined.

Lemma sync_settles_witness :
  sync_tasks known devices
    (remote (smartapp_sync_subscriptions known no_faults reverse "pat" "loc-1"
               "app-1" devices cloud_twice).2) = [].
Proof.
  apply (sync_settles known reverse "pat" "loc-1" "app-1" devices cloud_twice
           reverse_Permutation).
  compute_done.
Defined.



Lemma sync_creates_capability_subscriptions_witness :
  installed_app_id on_thermostat = "app-1"
  ∧ location_id on_thermostat = "loc-1"
  ∧ source_type on_thermostat = CAPABILITY
  ∧ capability on_thermostat ∈ desired_capabilities known devices.
Proof.
  apply (sync_creates_capability_subscriptions known reverse "pat" "loc-1"
           "app-1" devices cloud reverse_Permutation); compute_done.
Defined.
End ReconcilerMoreSamples.

Section FlowMoreSamples.
Import Regex ConfigFlow Samples.

Lemma pat_without_token_witness :
  ∃ w',
    async_step_pat cloud_with_app install_url None fresh_flow
      = (Ret (ShowForm "pat" TokenSchema ∅), w')
    ∧ self w' = self fresh_flow ∧ calls w' = calls fresh_flow
    ∧ smartapps w' = smartapps fresh_flow.
Proof.
  exact (pat_without_token cloud_with_app install_url None fresh_flow eq_refl).
Defined.

Lemma select_location_offers_listed_witness :
  ∃ w' options,
    async_step_select_location cloud_with_app install_url None validated_flow
      = (Ret (ShowForm "select_location" (LocationSchema options) ∅), w')
    ∧ dom options = list_to_set (loc_location_id <$> [home])
    ∧ self w' = self validated_flow.
Proof.
  exact (select_location_offers_listed cloud_with_app install_url None token
           validated_flow home [] eq_refl eq_refl eq_refl).
Defined.

Lemma select_location_listing_error_witness :
  ∃ w',
    async_step_select_location cloud_listing_down install_url None validated_flow
      = (Raise (RemoteExn APIResponseError), w')
    ∧ self w' = self validated_flow.
Proof.
  exact (select_location_listing_error cloud_listing_down install_url None token
           validated_flow (RemoteExn APIResponseError) eq_refl eq_refl eq_refl).
Defined.

Lemma pat_listing_error_escapes_witness :
  ∃ w',
    async_step_pat cloud_listing_down install_url
      (Some {[CONF_ACCESS_TOKEN := token]}) fresh_flow
      = (Raise (RemoteExn APIResponseError), w')
    ∧ smartapps w' = smartapps fresh_flow ++ [registered]
    ∧ app_id (self w') = Some (app_app_id registered).
Proof.
  apply (pat_listing_error_escapes cloud_listing_down install_url
           {[CONF_ACCESS_TOKEN := token]} token registered fresh_flow
           (RemoteExn APIResponseError));
    [done|by vm_compute|done|done|done|done].
Defined.


Lemma authorize_prompts_witness :
  (async_step_authorize install_url None located_flow).1
    = Ret (ExternalStep "authorize" (install_url "app-1" "loc-1")).
Proof.
  destruct (authorize_prompts install_url None located_flow eq_refl)
    as (_ & _ & Hrun).
  exact Hrun.
Defined.

Lemma authorize_needs_app_and_location_witness :
  ∃ name w',
    async_step_authorize install_url
      (Some {[CONF_INSTALLED_APP_ID := "installed-1"]}) fresh_flow
      = (Raise (AttributeError name), w').
Proof.
  apply (authorize_needs_app_and_location install_url
           {[CONF_INSTALLED_APP_ID := "installed-1"]} fresh_flow).
  - by vm_compute.
  - by left.
Defined.
End FlowMoreSamples.

Section WebhookMoreSamples.
Import Webhook Samples.

Lemma smartapp_webhook_decoded_witness :
  (smartapp_webhook loads dumps "hook-1" ping hass).1
    = Ret {| status := 200; text := Some "{}";
             content_type := Some "application/json" |}.
Proof.
  exact (smartapp_webhook_decoded loads dumps "hook-1" ping echo (JObj []) hass
           eq_refl eq_refl).
Defined.

Lemma smartapp_webhook_without_manager_witness :
  smartapp_webhook loads dumps "hook-1" ping hass_without_manager
    = (Raise (KeyError "manager"), hass_without_manager).
Proof.
  exact (smartapp_webhook_without_manager loads dumps "hook-1" ping
           hass_without_manager eq_refl).
Defined.
End WebhookMoreSamples.

Section UserSamples.
Import ConfigFlow UserStep Samples.

Lemma user_step_setup_failure_witness :
  ∃ w',
    async_step_user hub_failing cloud_with_app install_url None entry
      = (Raise (RemoteExn ServerTimeoutError), w')
    ∧ endpoints_initialized (self (flow w')) = true
    ∧ ∀ inputs,
        endpoint_setups (user_steps hub_failing cloud_with_app install_url
                           inputs w')
          = endpoint_setups w'.
Proof.
  exact (user_step_setup_failure hub_failing cloud_with_app install_url None
           entry (RemoteExn ServerTimeoutError) eq_refl eq_refl).
Defined.

Lemma user_step_invalid_webhook_witness :
  ∃ w',
    async_step_user hub_unreachable cloud_with_app install_url
      (Some {[CONF_ACCESS_TOKEN := token]}) entry
      = (Ret (Result (Abort "invalid_webhook_url")), w')
    ∧ calls (flow w') = calls (flow entry)
    ∧ access_token (self (flow w')) = access_token (self (flow entry)).
Proof.
  apply (user_step_invalid_webhook hub_unreachable cloud_with_app install_url
           (Some {[CONF_ACCESS_TOKEN := token]}) entry).
  - by right.
  - reflexivity.
Defined.

Lemma user_step_confirms_witness :
  ∃ w',
    async_step_user hub_ready cloud_with_app install_url
      (Some {[CONF_ACCESS_TOKEN := token]}) entry
      = (Ret (Result (ShowForm "pat" TokenSchema ∅)), w')
    ∧ calls (flow w') = calls (flow entry)
    ∧ access_token (self (flow w')) = access_token (self (flow entry)).
Proof.
  apply (user_step_confirms hub_ready cloud_with_app install_url
           (Some {[CONF_ACCESS_TOKEN := token]}) entry).
  - by right.
  - reflexivity.
Defined.
End UserSamples.
